(** * power-tabs: the background listener ([src/background/listen.js])

  A shallow embedding of the navigation policy of the background script:
  the exemption tracker ([exemptTab], [isExempt]), the navigation decision
  ([onBeforeRequest]), the message handlers and the tab events, together
  with the percent-encoding used for the confirmation URL ([encodeURL]).

  JavaScript strings are sequences of UTF-16 code units; they are modelled
  as lists of [N], so that [encodeURIComponent] and [decodeURIComponent]
  can be written out as ECMA-262 defines them (sections 19.2.6.5 Encode
  and 19.2.6.6 Decode). *)

From Stdlib Require Import NArith ZArith Lia Ascii.
From stdpp Require Import gmap strings list pretty.

Local Open Scope N_scope.

(** ** JavaScript strings *)

Module JsString.

(** A string value: the list of its UTF-16 code units. *)
Abbreviation jsstring := (list N).

(** Every element is a 16-bit code unit. *)
Definition code_units (s : jsstring) : Prop := Forall (λ c, c < 65536) s.

(** An ASCII literal of the source, as a string value. *)
Fixpoint lit (s : string) : jsstring :=
  match s with
  | EmptyString => []
  | String a s' => Ascii.N_of_ascii a :: lit s'
  end.

Definition is_leading_surrogate (c : N) : bool := (0xD800 <=? c) && (c <=? 0xDBFF).
Definition is_trailing_surrogate (c : N) : bool := (0xDC00 <=? c) && (c <=? 0xDFFF).

(** No unpaired surrogate: what [String.prototype.isWellFormed] tests. *)
Fixpoint isWellFormed (s : jsstring) : bool :=
  match s with
  | [] => true
  | c :: rest =>
      if is_leading_surrogate c then
        match rest with
        | c2 :: rest' => is_trailing_surrogate c2 && isWellFormed rest'
        | [] => false
        end
      else if is_trailing_surrogate c then false
      else isWellFormed rest
  end.

(** [Number.prototype.toString(16)] on a non-negative integer: lower-case
    digits, no padding. *)
Definition hex_digit_lower (d : N) : N :=
  if d <? 10 then 48 + d else 97 + (d - 10).

Definition hex_digit_upper (d : N) : N :=
  if d <? 10 then 48 + d else 65 + (d - 10).

Fixpoint pos_toString16 (p : positive) (fuel : nat) (acc : jsstring) : jsstring :=
  match fuel with
  | O => acc
  | S fuel' =>
      let n := Npos p in
      let acc' := hex_digit_lower (n mod 16) :: acc in
      match n / 16 with
      | N0 => acc'
      | Npos q => pos_toString16 q fuel' acc'
      end
  end.

Definition toString16 (n : N) : jsstring :=
  match n with
  | N0 => [48]
  | Npos p => pos_toString16 p (Pos.to_nat (Pos.size p)) []
  end.

End JsString.
Import JsString.

(** ** Percent-encoding (ECMA-262 19.2.6) *)

Module URI.

Definition PERCENT : N := 37.

Definition is_alpha (c : N) : bool :=
  ((65 <=? c) && (c <=? 90)) || ((97 <=? c) && (c <=? 122)).
Definition is_digit (c : N) : bool := (48 <=? c) && (c <=? 57).

(** uriMark: one of [- _ . ! ~ * ' ( )]. *)
Definition is_mark (c : N) : bool :=
  bool_decide (c ∈ [45; 95; 46; 33; 126; 42; 39; 40; 41]).

(** The unescaped set of [encodeURIComponent]: uriAlpha, DecimalDigit and
    uriMark. *)
Definition uriUnescaped (c : N) : bool := is_alpha c || is_digit c || is_mark c.

(** A Unicode scalar value: a code point that is not a surrogate. *)
Definition scalar (cp : N) : Prop :=
  cp ≤ 0x10FFFF ∧ ¬ (0xD800 ≤ cp ≤ 0xDFFF).

(** UTF16SurrogatePairToCodePoint. *)
Definition surrogate_pair_to_code_point (lead trail : N) : N :=
  (lead - 0xD800) * 0x400 + (trail - 0xDC00) + 0x10000.

(** The UTF-8 octets of a code point. *)
Definition utf8_encode (cp : N) : list N :=
  if cp <=? 0x7F then [cp]
  else if cp <=? 0x7FF then [0xC0 + cp / 64; 0x80 + cp mod 64]
  else if cp <=? 0xFFFF then
    [0xE0 + cp / 4096; 0x80 + (cp / 64) mod 64; 0x80 + cp mod 64]
  else
    [0xF0 + cp / 262144; 0x80 + (cp / 4096) mod 64;
     0x80 + (cp / 64) mod 64; 0x80 + cp mod 64].

(** One octet as ["%XX"], upper-case and padded to two digits. *)
Definition escape_octet (b : N) : jsstring :=
  [PERCENT; hex_digit_upper (b / 16); hex_digit_upper (b mod 16)].

Definition escape_octets (octets : list N) : jsstring :=
  flat_map escape_octet octets.

(** Encode(string, unescapedSet) with the set of [encodeURIComponent];
    [None] is the URIError thrown at an unpaired surrogate. *)
Fixpoint encodeURIComponent (s : jsstring) : option jsstring :=
  match s with
  | [] => Some []
  | c :: rest =>
      if uriUnescaped c then r ← encodeURIComponent rest; Some (c :: r)
      else if is_leading_surrogate c then
        match rest with
        | c2 :: rest' =>
            if is_trailing_surrogate c2 then
              r ← encodeURIComponent rest';
              Some (escape_octets (utf8_encode (surrogate_pair_to_code_point c c2)) ++ r)
            else None
        | [] => None
        end
      else if is_trailing_surrogate c then None
      else r ← encodeURIComponent rest; Some (escape_octets (utf8_encode c) ++ r)
  end.

(** The replacement callback of [encodeURL]:
    [(c) => `%${c.charCodeAt(0).toString(16)}`]. *)
Definition escape_char (c : N) : jsstring := PERCENT :: toString16 c.

(** The character class [[!'()*]]. *)
Definition in_class (c : N) : bool := bool_decide (c ∈ [33; 39; 40; 41; 42]).

(** [.replace(/[!'()*]/g, callback)]: every code unit of the class is
    replaced, the others are kept. *)
Definition replace_class (s : jsstring) : jsstring :=
  flat_map (λ c, if in_class c then escape_char c else [c]) s.

(** [encodeURL] of listen.js. *)
Definition encodeURL (url : jsstring) : option jsstring :=
  replace_class <$> encodeURIComponent url.

(** Value of one hexadecimal digit, either case. *)
Definition hex_value (c : N) : option N :=
  if is_digit c then Some (c - 48)
  else if (65 <=? c) && (c <=? 70) then Some (c - 65 + 10)
  else if (97 <=? c) && (c <=? 102) then Some (c - 97 + 10)
  else None.

(** ParseHexOctet on the two code units after a ["%"]. *)
Definition parse_hex_octet (s : jsstring) : option (N * jsstring) :=
  match s with
  | h :: l :: rest =>
      hi ← hex_value h; lo ← hex_value l; Some (16 * hi + lo, rest)
  | _ => None
  end.

(** Number of leading 1 bits of an octet. *)
Definition leading_ones (b : N) : nat :=
  if b <? 0x80 then 0
  else if b <? 0xC0 then 1
  else if b <? 0xE0 then 2
  else if b <? 0xF0 then 3
  else if b <? 0xF8 then 4
  else 5%nat.

(** The [n] escaped octets that follow the first one of a sequence. *)
Fixpoint read_continuation (n : nat) (s : jsstring) : option (list N * jsstring) :=
  match n with
  | O => Some ([], s)
  | S n' =>
      match s with
      | c :: rest =>
          if c =? PERCENT then
            '(b, rest1) ← parse_hex_octet rest;
            '(bs, rest2) ← read_continuation n' rest1;
            Some (b :: bs, rest2)
          else None
      | [] => None
      end
  end.

Definition is_continuation (b : N) : bool := (0x80 <=? b) && (b <=? 0xBF).

(** The code point of a well-formed UTF-8 sequence of two to four octets:
    continuation octets are [10xxxxxx], and the value is in the range of
    its length (no overlong form), not a surrogate and at most 0x10FFFF. *)
Definition utf8_decode (octets : list N) : option N :=
  match octets with
  | [b0; b1] =>
      let v := (b0 - 0xC0) * 64 + (b1 - 0x80) in
      if is_continuation b1 && (0x80 <=? v) then Some v else None
  | [b0; b1; b2] =>
      let v := (b0 - 0xE0) * 4096 + (b1 - 0x80) * 64 + (b2 - 0x80) in
      if is_continuation b1 && is_continuation b2 && (0x800 <=? v)
         && negb ((0xD800 <=? v) && (v <=? 0xDFFF))
      then Some v else None
  | [b0; b1; b2; b3] =>
      let v := (b0 - 0xF0) * 262144 + (b1 - 0x80) * 4096
               + (b2 - 0x80) * 64 + (b3 - 0x80) in
      if is_continuation b1 && is_continuation b2 && is_continuation b3
         && (0x10000 <=? v) && (v <=? 0x10FFFF)
      then Some v else None
  | _ => None
  end.

(** UTF16EncodeCodePoint. *)
Definition utf16_encode (cp : N) : jsstring :=
  if cp <=? 0xFFFF then [cp]
  else [(cp - 0x10000) / 0x400 + 0xD800; (cp - 0x10000) mod 0x400 + 0xDC00].

(** Decode(string, preserveEscapeSet) with the empty set of
    [decodeURIComponent]; [None] is the URIError.  Each round consumes at
    least one code unit, so [length s] rounds are enough. *)
Fixpoint decode (fuel : nat) (s : jsstring) : option jsstring :=
  match s with
  | [] => Some []
  | c :: rest =>
      match fuel with
      | O => None
      | S fuel' =>
          if c =? PERCENT then
            '(b, rest1) ← parse_hex_octet rest;
            match leading_ones b with
            | 0%nat => r ← decode fuel' rest1; Some (b :: r)
            | 1%nat => None
            | S n' =>
                if (4 <? S n')%nat then None
                else
                  '(bs, rest2) ← read_continuation n' rest1;
                  v ← utf8_decode (b :: bs);
                  r ← decode fuel' rest2;
                  Some (utf16_encode v ++ r)
            end
          else r ← decode fuel' rest; Some (c :: r)
      end
  end.

Definition decodeURIComponent (s : jsstring) : option jsstring :=
  decode (length s) s.

End URI.

(** ** JavaScript values *)

Module Js.

(** The primitive values that the listener stores, compares and
    interpolates: group identifiers, flags and message fields.  The numbers
    are the integers (identifiers). *)
Inductive value :=
| VUndefined
| VNull
| VBool (b : bool)
| VNumber (n : Z)
| VString (s : jsstring).

#[global] Instance value_eq_dec : EqDecision value.
Proof. solve_decision. Defined.

(** ToBoolean. *)
Definition truthy (v : value) : bool :=
  match v with
  | VUndefined | VNull => false
  | VBool b => b
  | VNumber n => negb (n =? 0)%Z
  | VString s => negb (bool_decide (s = []))
  end.

(** [v !== w] on primitive values. *)
Definition strict_neq (v w : value) : bool := negb (bool_decide (v = w)).

(** ToString, as a template literal applies it. *)
Definition ToString (v : value) : jsstring :=
  match v with
  | VUndefined => lit "undefined"
  | VNull => lit "null"
  | VBool true => lit "true"
  | VBool false => lit "false"
  | VNumber n => lit (pretty n)
  | VString s => s
  end.

Inductive exn := TypeError | URIError.

End Js.
Import Js.

(** ** The state of the background page and of the browser *)

(** The record stored under [page:<domain>]. *)
Record PageSettings := mkPageSettings { group : value; neverAsk : value }.

(** [_exemptTabs] is created by [new Map()], and the script uses it in two
    ways: through the Map methods [has] and [delete], which see the Map's
    entries, and through [_exemptTabs[tabId]], which reads and writes an own
    property of the object.  A tab id is a number, its property key is its
    decimal string, and no method of a Map has such a name, so the own
    properties are a map from tab ids of their own. *)
Record ExemptTabs := mkExemptTabs {
  entries : gmap Z (gset jsstring);
  properties : gmap Z (gset jsstring)
}.

(** A message posted on a port. *)
Inductive notification :=
| Connected
| MoveTabGroup (tabId : Z) (groupId : value).

(** Calls into the browser that leave the background page. *)
Inductive call :=
| TabsUpdate (tabId : Z) (loadReplace : bool) (url : jsstring)
| HistoryDeleteUrl (url : jsstring)
| PortPostMessage (port : nat) (msg : notification).

(** The callback that [redirectTab] attaches with [.then] to the promise of
    its [tabs.update] call: [issued] is the position of that call in the
    log, [delete_url] the url the callback deletes. *)
Record reaction := mkReaction { issued : nat; delete_url : jsstring }.

Record State := mkState {
  exemptTabs : ExemptTabs;
  ports : list (Z * nat);                    (* _ports, in insertion order *)
  storage_local : gmap jsstring PageSettings; (* browser.storage.local *)
  tab_values : gmap Z value;                 (* sessions: "group-id" *)
  window_values : gmap Z value;              (* sessions: "active-group-id" *)
  log : list call;                           (* calls issued, oldest first *)
  pending : list reaction                    (* callbacks not yet run *)
}.

Definition set_exemptTabs (f : ExemptTabs → ExemptTabs) (st : State) : State :=
  mkState (f (exemptTabs st)) (ports st) (storage_local st) (tab_values st)
          (window_values st) (log st) (pending st).
Definition set_ports (f : list (Z * nat) → list (Z * nat)) (st : State) : State :=
  mkState (exemptTabs st) (f (ports st)) (storage_local st) (tab_values st)
          (window_values st) (log st) (pending st).
Definition set_storage_local (f : gmap jsstring PageSettings → gmap jsstring PageSettings)
    (st : State) : State :=
  mkState (exemptTabs st) (ports st) (f (storage_local st)) (tab_values st)
          (window_values st) (log st) (pending st).
Definition set_tab_values (f : gmap Z value → gmap Z value) (st : State) : State :=
  mkState (exemptTabs st) (ports st) (storage_local st) (f (tab_values st))
          (window_values st) (log st) (pending st).
Definition set_window_values (f : gmap Z value → gmap Z value) (st : State) : State :=
  mkState (exemptTabs st) (ports st) (storage_local st) (tab_values st)
          (f (window_values st)) (log st) (pending st).
Definition set_log (f : list call → list call) (st : State) : State :=
  mkState (exemptTabs st) (ports st) (storage_local st) (tab_values st)
          (window_values st) (f (log st)) (pending st).
Definition set_pending (f : list reaction → list reaction) (st : State) : State :=
  mkState (exemptTabs st) (ports st) (storage_local st) (tab_values st)
          (window_values st) (log st) (f (pending st)).

(** The state when the script is loaded: both Maps are new, the stores are
    those of the browser. *)
Definition initial (storage : gmap jsstring PageSettings)
    (tabs windows : gmap Z value) : State :=
  mkState (mkExemptTabs ∅ ∅) [] storage tabs windows [] [].

(** ** Handlers: state and exceptions *)

(** A handler runs on the state and ends with a value or a thrown
    exception (for an async function: a rejected promise).  A handler is
    run to its end: what other handlers do while one is suspended at an
    [await] is not modelled. *)
Definition M (A : Type) : Type := State → (exn + A) * State.

#[global] Instance M_ret : MRet M := λ A a st, (inr a, st).
#[global] Instance M_bind : MBind M := λ A B f c st,
  match c st with
  | (inr a, st') => f a st'
  | (inl e, st') => (inl e, st')
  end.
#[global] Instance M_throw : MThrow exn M := λ A e st, (inl e, st).

(** A built-in that returns or throws. *)
Definition or_throw {A} (e : exn) (o : option A) : M A :=
  match o with
  | Some a => mret a
  | None => mthrow e
  end.

Definition gets {A} (f : State → A) : M A := λ st, (inr (f st), st).
Definition modify (f : State → State) : M unit := λ st, (inr tt, f st).

(** What a handler returned with, and the state it left. *)
Definition result {A} (r : (exn + A) * State) : exn + A := fst r.
Definition after {A} (r : (exn + A) * State) : State := snd r.

(** *** The browser API

    The calls are modelled for tabs and windows that exist, where they
    fulfil; a session value that was never set reads as [undefined]. *)

Definition sessions_getTabValue (tabId : Z) : M value :=
  gets (λ st, default VUndefined (tab_values st !! tabId)).
Definition sessions_setTabValue (tabId : Z) (v : value) : M unit :=
  modify (set_tab_values <[tabId := v]>).
Definition sessions_getWindowValue (windowId : Z) : M value :=
  gets (λ st, default VUndefined (window_values st !! windowId)).
Definition sessions_setWindowValue (windowId : Z) (v : value) : M unit :=
  modify (set_window_values <[windowId := v]>).

(** [browser.storage.local.get(key)]: the object has the own property
    [key] exactly when the store has a record under it. *)
Definition storage_local_get (key : jsstring) : M (option PageSettings) :=
  gets (λ st, storage_local st !! key).
Definition storage_local_set (key : jsstring) (p : PageSettings) : M unit :=
  modify (set_storage_local <[key := p]>).

(** [browser.tabs.get(tabId)]: the tab, of which the script reads [id]. *)
Definition tabs_get (tabId : Z) : M Z := mret tabId.

Definition issue (c : call) : M unit := modify (set_log (λ l, l ++ [c])).

(** [Map.prototype.set] and [Map.prototype.delete] on a Map kept in
    insertion order: [set] on a key that is present replaces the value in
    place, on a new key it appends. *)
Fixpoint Map_set (k : Z) (v : nat) (l : list (Z * nat)) : list (Z * nat) :=
  match l with
  | [] => [(k, v)]
  | (k', v') :: l' =>
      if bool_decide (k' = k) then (k, v) :: l' else (k', v') :: Map_set k v l'
  end.

Definition Map_delete (k : Z) (l : list (Z * nat)) : list (Z * nat) :=
  filter (λ p, p.1 ≠ k) l.

Fixpoint for_each {A} (l : list A) (f : A → M unit) : M unit :=
  match l with
  | [] => mret tt
  | x :: l' => f x;; for_each l' f
  end.

(** ** The listener *)

(** What [onBeforeRequest] resolves to: [{}] or [{redirectUrl: url}]. *)
Inductive BlockingResponse :=
| Empty
| RedirectUrl (url : jsstring).

(** The [details] object of a web request, as far as the listener reads it. *)
Record options := mkOptions { o_frameId : Z; o_tabId : Z; o_url : jsstring }.

(** A message of the popup, the sidebar or the confirmation page, as far as
    the listener reads it.  [m_groupId] is [None] when the message has no
    own property [groupId]. *)
Record message := mkMessage {
  m_method : jsstring;
  m_hostname : jsstring;
  m_neverAsk : value;
  m_tabId : Z;
  m_windowId : Z;
  m_redirectUrl : jsstring;
  m_originalUrl : jsstring;
  m_exempt : value;
  m_groupId : option value
}.

(** [message.groupId]. *)
Definition groupId_of (m : message) : value := default VUndefined (m_groupId m).

(** The two built-ins whose results the script only passes on: the
    [hostname] of [new URL(url)] ([None] when the constructor throws) and
    [browser.extension.getURL]. *)
Class Browser := {
  URL_hostname : jsstring → option jsstring;
  extension_getURL : jsstring → jsstring
}.

Section Listen.

Context `{Browser}.

(** [new URL(url).hostname]. *)
Definition new_URL_hostname (url : jsstring) : M jsstring :=
  or_throw TypeError (URL_hostname url).

Definition postMessage (msg : notification) : M unit :=
  ps ← gets ports;
  for_each ps (λ p, issue (PortPostMessage p.2 msg)).

Definition set_properties (f : gmap Z (gset jsstring) → gmap Z (gset jsstring)) : M unit :=
  modify (set_exemptTabs (λ e, mkExemptTabs (entries e) (f (properties e)))).

Definition exemptTab (tabId : Z) (domainName : jsstring) : M unit :=
  e ← gets exemptTabs;
  if negb (bool_decide (is_Some (entries e !! tabId))) then
    set_properties <[tabId := {[domainName]}]>
  else
    match properties e !! tabId with
    | Some set => set_properties <[tabId := set ∪ {[domainName]}]>
    | None => mthrow TypeError
    end.

Definition isExempt (tabId : Z) (domainName : jsstring) : M value :=
  e ← gets exemptTabs;
  match properties e !! tabId with
  | Some set => mret (VBool (bool_decide (domainName ∈ set)))
  | None => mret VUndefined
  end.

Definition page_key (domainName : jsstring) : jsstring := lit "page:" ++ domainName.

Definition onBeforeRequest (options : options) : M BlockingResponse :=
  if negb (bool_decide (o_frameId options = 0%Z)) || bool_decide (o_tabId options = (-1)%Z)
  then mret Empty
  else
    domainName ← new_URL_hostname (o_url options);
    let key := page_key domainName in
    tab_id ← tabs_get (o_tabId options);
    settings ← storage_local_get key;
    exempt ← isExempt tab_id domainName;
    if truthy exempt then mret Empty
    else
      match settings with
      | None => mret Empty
      | Some settings =>
          if truthy (neverAsk settings) then mret Empty
          else
            groupId ← sessions_getTabValue (o_tabId options);
            if negb (truthy groupId) then mret Empty
            else if strict_neq groupId (group settings) then
              let extURL := extension_getURL (lit "/background/confirm.html") in
              encoded ← or_throw URIError (URI.encodeURL (o_url options));
              mret (RedirectUrl
                      (extURL ++ lit "?url=" ++ encoded
                       ++ lit "&groupId=" ++ ToString (group settings)
                       ++ lit "&tabId=" ++ ToString (VNumber tab_id)))
            else mret Empty
      end.

Definition toggleNeverAsk (domainName : jsstring) (v : value) : M unit :=
  let key := page_key domainName in
  settings ← storage_local_get key;
  match settings with
  | None => mret tt
  | Some p => storage_local_set key (mkPageSettings (group p) v)
  end.

(** The navigation is issued; the deletion is the [.then] callback of its
    promise and waits in [pending] until that promise settles. *)
Definition redirectTab (m : message) : M unit :=
  position ← gets (λ st, length (log st));
  issue (TabsUpdate (m_tabId m) true (m_redirectUrl m));;
  modify (set_pending (λ l, l ++ [mkReaction position (m_originalUrl m)])).

Definition moveTabToGroup (m : message) : M unit :=
  sessions_setTabValue (m_tabId m) (groupId_of m);;
  redirectTab m;;
  postMessage (MoveTabGroup (m_tabId m) (groupId_of m)).

Definition onPortMessage (m : message) : M unit :=
  if bool_decide (m_method m = lit "invalidateExempt") then
    modify (set_exemptTabs (λ e, mkExemptTabs (delete (m_tabId m) (entries e)) (properties e)))
  else if bool_decide (m_method m = lit "activeGroup") then
    sessions_setWindowValue (m_windowId m) (groupId_of m)
  else mret tt.

(** [windowId] is [parseInt(port.name)]. *)
Definition portConnected (windowId : Z) (port : nat) : M unit :=
  modify (set_ports (Map_set windowId port));;
  issue (PortPostMessage port Connected).

Definition onMessage (m : message) : M unit :=
  if bool_decide (m_method m = lit "neverAsk") then
    toggleNeverAsk (m_hostname m) (m_neverAsk m)
  else if bool_decide (m_method m = lit "redirectTab") then
    (if truthy (m_exempt m) then
       domainName ← new_URL_hostname (m_redirectUrl m);
       exemptTab (m_tabId m) domainName
     else mret tt);;
    match m_groupId m with
    | Some _ => moveTabToGroup m
    | None => redirectTab m
    end
  else mret tt.

Definition onTabCreated (id windowId : Z) : M unit :=
  groupId ← sessions_getWindowValue windowId;
  sessions_setTabValue id groupId.

Definition onTabActive (tabId windowId : Z) : M unit :=
  groupId ← sessions_getTabValue tabId;
  activeGroupId ← sessions_getWindowValue windowId;
  if strict_neq groupId activeGroupId then
    sessions_setWindowValue windowId groupId
  else mret tt.

Definition onWindowRemoved (windowId : Z) : M unit :=
  modify (set_ports (Map_delete windowId)).

(** The promise of a [tabs.update] call settles: its callback runs when the
    promise is fulfilled and is dropped when it is rejected. *)
Definition react (fulfilled : bool) (r : reaction) : M unit :=
  if fulfilled then issue (HistoryDeleteUrl (delete_url r)) else mret tt.

Definition settle (i : nat) (fulfilled : bool) : M unit :=
  ps ← gets pending;
  match ps !! i with
  | Some r => modify (set_pending (delete i));; react fulfilled r
  | None => mret tt
  end.

(** What the browser can make the background page do. *)
Inductive event :=
| BeforeRequest (o : options)
| Message (m : message)
| PortMessage (m : message)
| PortConnected (windowId : Z) (port : nat)
| WindowRemoved (windowId : Z)
| TabCreated (id windowId : Z)
| TabActivated (tabId windowId : Z)
| Settled (i : nat) (fulfilled : bool).

Definition step (st : State) (e : event) : State :=
  match e with
  | BeforeRequest o => after (onBeforeRequest o st)
  | Message m => after (onMessage m st)
  | PortMessage m => after (onPortMessage m st)
  | PortConnected w p => after (portConnected w p st)
  | WindowRemoved w => after (onWindowRemoved w st)
  | TabCreated id w => after (onTabCreated id w st)
  | TabActivated t w => after (onTabActive t w st)
  | Settled i f => after (settle i f st)
  end.

Definition run (es : list event) (st : State) : State := foldl step st es.

(** Whether [isExempt(tabId, domainName)] is truthy in a state. *)
Definition exempt_in (st : State) (tabId : Z) (domainName : jsstring) : bool :=
  match result (isExempt tabId domainName st) with
  | inr v => truthy v
  | inl _ => false
  end.

(** The group of a tab as [onBeforeRequest] reads it (lines 64 to 67): the
    session value ["group-id"], and no group when that value is falsy. *)
Definition currentGroup (st : State) (tabId : Z) : option value :=
  let g := default VUndefined (tab_values st !! tabId) in
  if truthy g then Some g else None.

End Listen.

(** ** Relations between the state before and after a handler

    [keeps R c]: the state that [c] leaves is related by [R] to the one it
    started from. *)
Definition keeps {A} (R : relation State) (c : M A) : Prop :=
  ∀ st, R st (after (c st)).

(** The log only grows. *)
Definition log_grows : relation State := λ st st', log st `prefix_of` log st'.

(** The Map entries of [_exemptTabs] stay empty: nothing calls [set]. *)
Definition no_entries : relation State := λ st st',
  entries (exemptTabs st) = ∅ → entries (exemptTabs st') = ∅.

(** Reading the log from the oldest call: the number of navigations
    whose deletion has not come yet, and [None] when a deletion comes
    before the navigation it belongs to. *)
Fixpoint outstanding (l : list call) (n : nat) : option nat :=
  match l with
  | [] => Some n
  | TabsUpdate _ _ _ :: l' => outstanding l' (S n)
  | HistoryDeleteUrl _ :: l' =>
      match n with
      | O => None
      | S n' => outstanding l' n'
      end
  | PortPostMessage _ _ :: l' => outstanding l' n
  end.

(** Deletions follow their navigations, and every pending callback has its
    navigation in the log. *)
Definition issue_then_delete : relation State := λ st st',
  ∀ n, outstanding (log st) 0 = Some n → (length (pending st) ≤ n)%nat →
       ∃ n', outstanding (log st') 0 = Some n' ∧ (length (pending st') ≤ n')%nat.

(** The records keep their groups, and no record comes or goes. *)
Definition records_kept : relation State := λ st st',
  ∀ key, group <$> (storage_local st' !! key) = group <$> (storage_local st !! key).

(** No window has two entries in [_ports]. *)
Definition one_port_per_window : relation State := λ st st',
  NoDup (ports st).*1 → NoDup (ports st').*1.


(** ** The start of the script: [prepare] *)

(** A tab as [browser.tabs.query({})] lists it, as far as [prepare] reads
    it. *)
Record Tab := mkTab { tab_id : Z; tab_windowId : Z; tab_active : bool }.

(** [prepare], on the tabs that the query returned. *)
Definition prepare (tabs : list Tab) : M unit :=
  for_each tabs (λ tab,
    groupId ← sessions_getTabValue (tab_id tab);
    if truthy groupId then
      if tab_active tab then sessions_setWindowValue (tab_windowId tab) groupId
      else mret tt
    else mret tt).

(** What [prepare] does to the window values, one tab at a time; the groups
    of the tabs are those of the state it starts in. *)
Definition prepare_windows (tab_values : gmap Z value) (tabs : list Tab)
    (window_values : gmap Z value) : gmap Z value :=
  foldl (λ wv tab,
           let groupId := default VUndefined (tab_values !! tab_id tab) in
           if truthy groupId && tab_active tab
           then <[tab_windowId tab := groupId]> wv else wv)
        window_values tabs.

(** [Map.prototype.get] on a Map kept in insertion order, and the port that
    [_ports] holds for a window. *)
Fixpoint Map_get (k : Z) (l : list (Z * nat)) : option nat :=
  match l with
  | [] => None
  | (k', v) :: l' => if bool_decide (k' = k) then Some v else Map_get k l'
  end.

Definition port_of (st : State) (windowId : Z) : option nat :=
  Map_get windowId (ports st).

(** ** The settings of the extension and its toolbar button

    [ensureDefaultSettings], [onSettingChange] and [onClicked] work on the
    setting keys of [browser.storage.local], whose values are primitive, on
    [_openSidebarOnClick] and on the browser's sidebar and popup.  None of
    this is read or written by the handlers above, so it is a state of its
    own. *)

Inductive ui_call :=
| SidebarActionOpen
| BrowserActionSetPopup (popup : jsstring)
| BrowserActionOpenPopup.

Record Prefs := mkPrefs {
  local : gmap jsstring value;   (* browser.storage.local: the setting keys *)
  openSidebarOnClick : value;    (* _openSidebarOnClick *)
  ui : list ui_call              (* calls issued, oldest first *)
}.

(** The object [settings] of [ensureDefaultSettings], in the order of its
    keys. *)
Definition default_settings : list (jsstring * value) :=
  [(lit "reverseTabDisplay", VBool false); (lit "openSidebarOnClick", VBool false)].

(** [browser.storage.local.get(keys)]: the stored entries of these keys. *)
Definition local_get (keys : list jsstring) (stored : gmap jsstring value)
  : gmap jsstring value :=
  filter (λ kv, kv.1 ∈ keys) stored.

(** [browser.storage.local.set(object)]: every own property is stored. *)
Definition local_set (object stored : gmap jsstring value) : gmap jsstring value :=
  object ∪ stored.

Definition ensureDefaultSettings (p : Prefs) : Prefs :=
  let settings := default_settings in
  let keys := settings.*1 in
  let before := local_get keys (local p) in
  if bool_decide (size before = 0%nat) then
    mkPrefs (local_set (list_to_map settings) (local p)) (openSidebarOnClick p) (ui p)
  else
    let before :=
      foldl (λ before kv,
               if bool_decide (is_Some (before !! kv.1)) then before
               else <[kv.1 := kv.2]> before)
            before settings in
    mkPrefs (local_set before (local p))
            (default VUndefined (before !! lit "openSidebarOnClick")) (ui p).

(** [changes] maps a changed key to its [newValue]. *)
Definition onSettingChange (changes : gmap jsstring value) (p : Prefs) : Prefs :=
  match changes !! lit "openSidebarOnClick" with
  | Some newValue => mkPrefs (local p) newValue (ui p)
  | None => p
  end.

Definition onClicked (p : Prefs) : Prefs :=
  let opened :=
    if truthy (openSidebarOnClick p) then ui p ++ [SidebarActionOpen] else ui p in
  mkPrefs (local p) (openSidebarOnClick p)
          (opened ++ [BrowserActionSetPopup (lit "/popup/main.html");
                      BrowserActionOpenPopup;
                      BrowserActionSetPopup []]).

(** The settings when the script is loaded: [_openSidebarOnClick] is
    [false] and nothing was called. *)
Definition loaded (stored : gmap jsstring value) : Prefs :=
  mkPrefs stored (VBool false) [].

(** ** Characters of an encoded url *)

(** The code units that [encodeURL] writes: letters, digits, [- _ . ~] and
    the [%] of an escape.  None of them delimits a part of a url. *)
Definition url_safe (c : N) : bool :=
  URI.is_alpha c || URI.is_digit c || bool_decide (c ∈ [45; 95; 46; 126; 37]).

(** ** Example inputs *)

Definition shop : jsstring := lit "shop.example".
Definition mail : jsstring := lit "mail.example".
Definition shop_url : jsstring := lit "https://shop.example/cart?id=(1)".
Definition mail_url : jsstring := lit "https://mail.example/".
Definition g1 : value := VString (lit "g1").
Definition g2 : value := VString (lit "g2").

(** A browser for the examples: the two urls it can parse, and the base url
    of the extension. *)
Definition example_browser : Browser := {|
  URL_hostname url :=
    if bool_decide (url = shop_url) then Some shop
    else if bool_decide (url = mail_url) then Some mail
    else None;
  extension_getURL path := lit "moz-extension://0a1b" ++ path
|}.

(** Tab 7 is in group [g1]; the record of [shop.example] is
    [{group, neverAsk}]; [mail.example] has no record and no window has an
    active group. *)
Definition example_state (group : value) (neverAsk : bool) : State :=
  initial {[ page_key shop := mkPageSettings group (VBool neverAsk) ]}
          {[ 7%Z := g1 ]} ∅.

(** Tab 7 navigates to the shop, or to the mail. *)
Definition to_shop : options := mkOptions 0 7 shop_url.
Definition to_mail : options := mkOptions 0 7 mail_url.

(** The confirmation page answers: redirect, keep the group, and exempt
    the tab for the domain. *)
Definition confirm_exempt : message :=
  mkMessage (lit "redirectTab") [] VUndefined 7 0 shop_url
            (lit "moz-extension://0a1b/background/confirm.html") (VBool true) None.

(** The message that invalidates the exemptions of tab 7. *)
Definition invalidate : message :=
  mkMessage (lit "invalidateExempt") [] VUndefined 7 0 [] [] VUndefined None.


(** The confirmation page answers: redirect and move the tab to [g2]. *)
Definition confirm_move : message :=
  mkMessage (lit "redirectTab") [] VUndefined 7 0 shop_url
            (lit "moz-extension://0a1b/background/confirm.html") VUndefined (Some g2).

(** The sidebar of window 3 switches to group [g2]. *)
Definition active_group_g2 : message :=
  mkMessage (lit "activeGroup") [] VUndefined 0 3 [] [] VUndefined (Some g2).

(** Two windows: tab 7 is the active tab of window 3, tab 8 is in the
    background of window 3 and tab 9 is the active tab of window 4. *)
Definition example_tabs : list Tab :=
  [mkTab 7 3 true; mkTab 8 3 false; mkTab 9 4 true].

(** * Properties *)

(** ** The percent-encoding *)

Module URIFacts.
Import URI.

Ltac ndiv := zify; Z.to_euclidean_division_equations; lia.

(** Boolean tests on code units, turned into arithmetic. *)
Ltac tests :=
  repeat match goal with
  | H : context [is_leading_surrogate ?c] |- _ => unfold is_leading_surrogate in H
  | H : context [is_trailing_surrogate ?c] |- _ => unfold is_trailing_surrogate in H
  | H : context [is_continuation ?c] |- _ => unfold is_continuation in H
  | H : _ && _ = true |- _ => apply andb_true_iff in H; destruct H
  | H : _ && _ = false |- _ => apply andb_false_iff in H
  | H : _ || _ = true |- _ => apply orb_true_iff in H
  | H : _ || _ = false |- _ => apply orb_false_iff in H; destruct H
  | H : (_ <=? _) = true |- _ => apply N.leb_le in H
  | H : (_ <=? _) = false |- _ => apply N.leb_gt in H
  | H : (_ <? _) = true |- _ => apply N.ltb_lt in H
  | H : (_ <? _) = false |- _ => apply N.ltb_ge in H
  | H : (_ =? _) = true |- _ => apply N.eqb_eq in H
  | H : (_ =? _) = false |- _ => apply N.eqb_neq in H
  end.

Lemma hex_value_upper d : d < 16 → hex_value (hex_digit_upper d) = Some d.
Proof.
  intros Hd.
  assert (d = 0 ∨ d = 1 ∨ d = 2 ∨ d = 3 ∨ d = 4 ∨ d = 5 ∨ d = 6 ∨ d = 7 ∨ d = 8
          ∨ d = 9 ∨ d = 10 ∨ d = 11 ∨ d = 12 ∨ d = 13 ∨ d = 14 ∨ d = 15) as Hc by lia.
  repeat (destruct Hc as [-> | Hc]; [reflexivity |]). by subst.
Qed.

Lemma parse_escape_octet b rest :
  b < 256 →
  parse_hex_octet (hex_digit_upper (b / 16) :: hex_digit_upper (b mod 16) :: rest)
  = Some (b, rest).
Proof.
  intros Hb. unfold parse_hex_octet.
  rewrite !hex_value_upper by ndiv. simpl. do 2 f_equal. ndiv.
Qed.

Lemma hex_digit_upper_ge d : 48 ≤ hex_digit_upper d.
Proof. unfold hex_digit_upper. destruct (d <? 10) eqn:E; tests; lia. Qed.

Lemma in_class_lt c : in_class c = true → c < 48.
Proof.
  unfold in_class. intros H%bool_decide_eq_true.
  repeat (apply elem_of_cons in H as [-> | H]; [lia |]). by apply elem_of_nil in H.
Qed.

Lemma in_class_hex_digit d : in_class (hex_digit_upper d) = false.
Proof.
  destruct (in_class _) eqn:E; [| done].
  apply in_class_lt in E. pose proof (hex_digit_upper_ge d). lia.
Qed.

Lemma replace_class_app s t : replace_class (s ++ t) = replace_class s ++ replace_class t.
Proof. unfold replace_class. apply flat_map_app. Qed.

(** The escapes that [encodeURIComponent] writes have no character of the
    class: [replace] leaves them as they are. *)
Lemma replace_class_escape_octets bs : replace_class (escape_octets bs) = escape_octets bs.
Proof.
  induction bs as [| b bs IH]; [done |].
  change (escape_octets (b :: bs)) with (escape_octet b ++ escape_octets bs).
  rewrite replace_class_app, IH. f_equal.
  unfold escape_octet, replace_class. simpl. by rewrite !in_class_hex_digit.
Qed.

Lemma read_continuation_escape bs rest :
  Forall (λ b, b < 256) bs →
  read_continuation (length bs) (escape_octets bs ++ rest) = Some (bs, rest).
Proof.
  induction 1 as [| b bs Hb _ IH]; [done |].
  cbn [length read_continuation escape_octets flat_map escape_octet app].
  rewrite N.eqb_refl, parse_escape_octet by done.
  cbn [mbind option_bind]. unfold escape_octets in IH. by rewrite IH.
Qed.

(** [decode] never runs out of rounds when it starts with as many as the
    string has code units: its result is then the same for any such
    number, and [None] is the URIError. *)
Lemma parse_hex_octet_length s b rest :
  parse_hex_octet s = Some (b, rest) → length s = S (S (length rest)).
Proof.
  destruct s as [| h [| l s]]; try done. unfold parse_hex_octet.
  destruct (hex_value h); [| done]. destruct (hex_value l); [| done].
  by intros [= _ ->].
Qed.

Lemma read_continuation_length n : ∀ s bs rest,
  read_continuation n s = Some (bs, rest) → (length rest ≤ length s)%nat.
Proof.
  induction n as [| n IH]; intros s bs rest; cbn [read_continuation].
  - by intros [= _ ->].
  - destruct s as [| c s]; [done |]. destruct (c =? PERCENT); [| done].
    destruct (parse_hex_octet s) as [[b rest1] |] eqn:Ep; [| done].
    cbn [mbind option_bind].
    destruct (read_continuation n rest1) as [[bs' rest2] |] eqn:Er; [| done].
    intros [= _ <-]. apply parse_hex_octet_length in Ep. apply IH in Er.
    simpl. lia.
Qed.

Lemma decode_enough_fuel fuel : ∀ s fuel',
  (length s ≤ fuel)%nat → (length s ≤ fuel')%nat → decode fuel s = decode fuel' s.
Proof.
  induction fuel as [| fuel IH]; intros [| c s] [| fuel'] Hf Hf'; try done;
    simpl in Hf, Hf'; try lia.
  cbn [decode].
  destruct (c =? PERCENT); [| by rewrite (IH s fuel') by lia].
  destruct (parse_hex_octet s) as [[b rest1] |] eqn:Ep; [| done].
  apply parse_hex_octet_length in Ep. cbn [mbind option_bind].
  destruct (leading_ones b) as [| [| n]]; [by rewrite (IH rest1 fuel') by lia | done |].
  destruct (4 <? S (S n))%nat; [done |].
  destruct (read_continuation (S n) rest1) as [[bs rest2] |] eqn:Er; [| done].
  apply read_continuation_length in Er. cbn [mbind option_bind].
  destruct (utf8_decode (b :: bs)); [| done]. cbn [mbind option_bind].
  by rewrite (IH rest2 fuel') by lia.
Qed.

(** One escaped octet below 0x80 decodes to its code unit. *)
Lemma decode_single fuel b rest :
  b < 0x80 →
  decode (S fuel) (escape_octet b ++ rest) = r ← decode fuel rest; Some (b :: r).
Proof.
  intros Hb. cbn [decode escape_octet app].
  rewrite N.eqb_refl, parse_escape_octet by lia. cbn [mbind option_bind].
  unfold leading_ones. by rewrite (proj2 (N.ltb_lt _ _) Hb).
Qed.

(** An escaped sequence of two to four octets that is well-formed UTF-8
    decodes to the code units of its code point. *)
Lemma decode_multi fuel b bs rest v :
  b < 256 → Forall (λ b, b < 256) bs →
  leading_ones b = S (length bs) → (1 ≤ length bs ≤ 3)%nat →
  utf8_decode (b :: bs) = Some v →
  decode (S fuel) (escape_octets (b :: bs) ++ rest)
  = r ← decode fuel rest; Some (utf16_encode v ++ r).
Proof.
  intros Hb Hbs Hn Hlen Hv.
  change (escape_octets (b :: bs)) with (escape_octet b ++ escape_octets bs).
  rewrite <- app_assoc. cbn [decode escape_octet app].
  rewrite N.eqb_refl, parse_escape_octet by done. cbn [mbind option_bind].
  rewrite Hn. destruct (length bs) as [| n] eqn:El; [lia |].
  replace (4 <? S (S n))%nat with false by (symmetry; apply Nat.ltb_ge; lia).
  rewrite <- El, read_continuation_escape by done. cbn [mbind option_bind].
  by rewrite Hv.
Qed.

(** [utf8_encode] writes well-formed UTF-8: a scalar value above 0x7F gives
    two to four octets, the first announces their number, and
    [utf8_decode] reads the code point back. *)
Lemma utf8_encode_decode cp :
  0x80 ≤ cp → scalar cp →
  ∃ b bs, utf8_encode cp = b :: bs ∧ b < 256 ∧ Forall (λ b, b < 256) bs
          ∧ leading_ones b = S (length bs) ∧ (1 ≤ length bs ≤ 3)%nat
          ∧ utf8_decode (b :: bs) = Some cp.
Proof.
  intros Hlo [Hhi Hsur]. unfold utf8_encode.
  destruct (cp <=? 0x7F) eqn:E1; tests; [lia |].
  destruct (cp <=? 0x7FF) eqn:E2; [| destruct (cp <=? 0xFFFF) eqn:E3]; tests.
  - eexists _, _. split; [reflexivity |].
    assert (0xC0 + cp / 64 < 0xE0 ∧ 0xC0 ≤ 0xC0 + cp / 64) as [? ?] by ndiv.
    assert (0x80 ≤ 0x80 + cp mod 64 ≤ 0xBF) as [? ?] by ndiv.
    repeat split; [lia | repeat constructor; lia | | simpl; lia | simpl; lia |].
    + unfold leading_ones.
      repeat match goal with
      | |- context [?a <? ?b] =>
          destruct (a <? b) eqn:?; tests; try lia
      end; reflexivity.
    + unfold utf8_decode, is_continuation.
      replace ((0xC0 + cp / 64 - 0xC0) * 64 + (0x80 + cp mod 64 - 0x80)) with cp by ndiv.
      rewrite !(proj2 (N.leb_le _ _)) by lia. reflexivity.
  - eexists _, _. split; [reflexivity |].
    assert (0xE0 ≤ 0xE0 + cp / 4096 < 0xF0) as [? ?] by ndiv.
    assert (0x80 ≤ 0x80 + (cp / 64) mod 64 ≤ 0xBF) as [? ?] by ndiv.
    assert (0x80 ≤ 0x80 + cp mod 64 ≤ 0xBF) as [? ?] by ndiv.
    repeat split; [lia | repeat constructor; lia | | simpl; lia | simpl; lia |].
    + unfold leading_ones.
      repeat match goal with
      | |- context [?a <? ?b] =>
          destruct (a <? b) eqn:?; tests; try lia
      end; reflexivity.
    + unfold utf8_decode, is_continuation.
      replace ((0xE0 + cp / 4096 - 0xE0) * 4096 + (0x80 + (cp / 64) mod 64 - 0x80) * 64
               + (0x80 + cp mod 64 - 0x80)) with cp by ndiv.
      rewrite !(proj2 (N.leb_le _ _)) by lia. cbn [andb].
      destruct ((0xD800 <=? cp) && (cp <=? 0xDFFF)) eqn:E; tests; [lia | reflexivity].
  - eexists _, _. split; [reflexivity |].
    assert (0xF0 ≤ 0xF0 + cp / 262144 < 0xF8) as [? ?] by ndiv.
    assert (0x80 ≤ 0x80 + (cp / 4096) mod 64 ≤ 0xBF) as [? ?] by ndiv.
    assert (0x80 ≤ 0x80 + (cp / 64) mod 64 ≤ 0xBF) as [? ?] by ndiv.
    assert (0x80 ≤ 0x80 + cp mod 64 ≤ 0xBF) as [? ?] by ndiv.
    repeat split; [lia | repeat constructor; lia | | simpl; lia | simpl; lia |].
    + unfold leading_ones.
      repeat match goal with
      | |- context [?a <? ?b] =>
          destruct (a <? b) eqn:?; tests; try lia
      end; reflexivity.
    + unfold utf8_decode, is_continuation.
      replace ((0xF0 + cp / 262144 - 0xF0) * 262144
               + (0x80 + (cp / 4096) mod 64 - 0x80) * 4096
               + (0x80 + (cp / 64) mod 64 - 0x80) * 64
               + (0x80 + cp mod 64 - 0x80)) with cp by ndiv.
      rewrite !(proj2 (N.leb_le _ _)) by lia. reflexivity.
Qed.

Lemma uriUnescaped_ascii c : uriUnescaped c = true → c < 128 ∧ c ≠ PERCENT.
Proof.
  unfold uriUnescaped, is_alpha, is_digit, is_mark, PERCENT. intros H.
  apply orb_true_iff in H as [H | H]; [apply orb_true_iff in H as [H | H] |].
  - tests. destruct H; tests; lia.
  - tests. lia.
  - apply bool_decide_eq_true in H.
    repeat (apply elem_of_cons in H as [-> | H]; [lia |]). by apply elem_of_nil in H.
Qed.

Lemma ascii_not_surrogate c :
  c < 128 → is_leading_surrogate c = false ∧ is_trailing_surrogate c = false.
Proof.
  intros Hc. unfold is_leading_surrogate, is_trailing_surrogate.
  by rewrite (proj2 (N.leb_gt 0xD800 c)), (proj2 (N.leb_gt 0xDC00 c)) by lia.
Qed.

Lemma utf16_encode_pair c c2 :
  is_leading_surrogate c = true → is_trailing_surrogate c2 = true →
  utf16_encode (surrogate_pair_to_code_point c c2) = [c; c2].
Proof.
  intros Hc Hc2. tests. unfold utf16_encode, surrogate_pair_to_code_point.
  destruct (_ <=? 0xFFFF) eqn:E; tests; [lia |]. f_equal; [| f_equal]; ndiv.
Qed.

Lemma pair_scalar c c2 :
  is_leading_surrogate c = true → is_trailing_surrogate c2 = true →
  0x80 ≤ surrogate_pair_to_code_point c c2 ∧ scalar (surrogate_pair_to_code_point c c2).
Proof.
  intros Hc Hc2. tests. unfold scalar, surrogate_pair_to_code_point. lia.
Qed.

(** The characters of the class, escaped by the callback of [encodeURL]
    (lower-case digits), decode to themselves. *)
Lemma decode_escape_char fuel c rest :
  in_class c = true →
  decode (S fuel) (escape_char c ++ rest) = r ← decode fuel rest; Some (c :: r).
Proof.
  unfold in_class. intros H%bool_decide_eq_true.
  repeat (apply elem_of_cons in H as [-> | H]; [reflexivity |]). by apply elem_of_nil in H.
Qed.

Lemma escape_char_length c : in_class c = true → (1 ≤ length (escape_char c))%nat.
Proof. intros _. unfold escape_char. simpl. lia. Qed.

(** The round trip, by induction on a bound of the length: a surrogate
    pair takes two code units at once. *)
Lemma encode_decode_bounded n : ∀ s,
  (length s ≤ n)%nat → code_units s → isWellFormed s = true →
  ∃ e, encodeURIComponent s = Some e
       ∧ ∀ fuel, (length (replace_class e) ≤ fuel)%nat →
                 decode fuel (replace_class e) = Some s.
Proof.
  induction n as [| n IH]; intros [| c rest] Hlen Hcu Hwf;
    try (exists []; split; [done | by intros []]); [simpl in Hlen; lia |].
  apply Forall_cons in Hcu as [Hc Hcu]. simpl in Hlen.
  cbn [encodeURIComponent isWellFormed] in *.
  destruct (uriUnescaped c) eqn:Eu.
  - destruct (uriUnescaped_ascii c Eu) as [Hc128 Hpct].
    destruct (ascii_not_surrogate c Hc128) as [El Et].
    rewrite El, Et in Hwf.
    destruct (IH rest) as (e & -> & Hdec); [lia | done | done |].
    exists (c :: e). split; [done |].
    change (replace_class (c :: e))
      with ((if in_class c then escape_char c else [c]) ++ replace_class e).
    intros fuel Hfuel. rewrite length_app in Hfuel.
    destruct (in_class c) eqn:Ec.
    + pose proof (escape_char_length c Ec).
      destruct fuel as [| fuel]; [lia |].
      rewrite decode_escape_char, Hdec by (done || lia). done.
    + destruct fuel as [| fuel]; [simpl in Hfuel; lia |].
      simpl in Hfuel. cbn [app decode].
      rewrite (proj2 (N.eqb_neq _ _) Hpct), Hdec by lia. done.
  - destruct (is_leading_surrogate c) eqn:El.
    + destruct rest as [| c2 rest']; [done |].
      apply andb_true_iff in Hwf as [Et Hwf]. rewrite Et.
      apply Forall_cons in Hcu as [Hc2 Hcu]. simpl in Hlen.
      destruct (IH rest') as (e & -> & Hdec); [lia | done | done |].
      destruct (pair_scalar c c2 El Et) as [Hlo Hsc].
      destruct (utf8_encode_decode _ Hlo Hsc) as (b & bs & -> & Hb & Hbs & Hn & Hl & Hv).
      eexists. split; [reflexivity |].
      rewrite replace_class_app, replace_class_escape_octets.
      intros fuel Hfuel. rewrite length_app in Hfuel.
      destruct fuel as [| fuel]; [simpl in Hfuel; lia |].
      rewrite (decode_multi _ _ _ _ _ Hb Hbs Hn Hl Hv), Hdec by (simpl in Hfuel; lia).
      cbn [mbind option_bind]. by rewrite utf16_encode_pair.
    + destruct (is_trailing_surrogate c) eqn:Et; [done |].
      destruct (IH rest) as (e & -> & Hdec); [lia | done | done |].
      eexists. split; [reflexivity |].
      rewrite replace_class_app, replace_class_escape_octets.
      intros fuel Hfuel. rewrite length_app in Hfuel.
      destruct (decide (c < 0x80)) as [Hsmall | Hbig].
      * unfold utf8_encode in *. rewrite (proj2 (N.leb_le c 0x7F)) in * by lia.
        destruct fuel as [| fuel]; [simpl in Hfuel; lia |].
        change (escape_octets [c]) with (escape_octet c ++ []).
        rewrite app_nil_r, decode_single, Hdec by (done || simpl in Hfuel; lia). done.
      * assert (scalar c) as Hsc.
        { unfold scalar, is_leading_surrogate, is_trailing_surrogate in *.
          apply andb_false_iff in El as [El | El], Et as [Et | Et]; tests; lia. }
        destruct (utf8_encode_decode c ltac:(lia) Hsc)
          as (b & bs & Hbbs & Hb & Hbs & Hn & Hl & Hv).
        rewrite Hbbs in *.
        destruct fuel as [| fuel]; [simpl in Hfuel; lia |].
        rewrite (decode_multi _ _ _ _ _ Hb Hbs Hn Hl Hv), Hdec by (simpl in Hfuel; lia).
        cbn [mbind option_bind]. unfold utf16_encode.
        by rewrite (proj2 (N.leb_le c 0xFFFF)) by lia.
Qed.

(** On a string without unpaired surrogate [encodeURIComponent] does not
    throw. *)
Lemma encodeURIComponent_total_bounded n : ∀ s,
  (length s ≤ n)%nat → isWellFormed s = true → is_Some (encodeURIComponent s).
Proof.
  induction n as [| n IH]; intros [| c rest] Hlen Hwf; try done;
    simpl in Hlen; [lia |].
  cbn [encodeURIComponent isWellFormed] in *.
  destruct (uriUnescaped c) eqn:Eu.
  - destruct (uriUnescaped_ascii c Eu) as [Hc128 _].
    destruct (ascii_not_surrogate c Hc128) as [El Et].
    rewrite El, Et in Hwf. destruct (IH rest) as [e ->]; [lia | done | by eexists].
  - destruct (is_leading_surrogate c).
    + destruct rest as [| c2 rest']; [done |].
      apply andb_true_iff in Hwf as [-> Hwf]. simpl in Hlen.
      destruct (IH rest') as [e ->]; [lia | done | by eexists].
    + destruct (is_trailing_surrogate c); [done |].
      destruct (IH rest) as [e ->]; [lia | done | by eexists].
Qed.

Lemma encodeURL_total url : isWellFormed url = true → is_Some (encodeURL url).
Proof.
  intros Hwf. unfold encodeURL.
  destruct (encodeURIComponent_total_bounded (length url) url) as [e ->]; by eauto.
Qed.

End URIFacts.

(** C5. Round trip of the confirmation-url encoding: on every string of
    16-bit code units without unpaired surrogate (every url is one; on the
    others [encodeURIComponent] throws), [encodeURL] returns a string that
    [decodeURIComponent] turns back into the original, the characters
    [! ' ( ) *] included. *)
Theorem encodeURL_decodeURIComponent (url : jsstring) :
  code_units url → isWellFormed url = true →
  ∃ e, URI.encodeURL url = Some e ∧ URI.decodeURIComponent e = Some url.
Proof.
  intros Hcu Hwf.
  destruct (URIFacts.encode_decode_bounded (length url) url) as (e & He & Hdec);
    [done | done | done |].
  exists (URI.replace_class e). split.
  - unfold URI.encodeURL. by rewrite He.
  - by apply Hdec.
Qed.

Lemma encodeURL_decodeURIComponent_witness :
  let url := lit "https://shop.example/it's(1)*!?q=a b" ++ [0xE9; 0x20AC; 0xD83D; 0xDE00] in
  code_units url ∧ isWellFormed url = true
  ∧ ∃ e, URI.encodeURL url = Some e ∧ URI.decodeURIComponent e = Some url.
Proof.
  intros url. assert (code_units url) as Hcu by (subst url; compute_done).
  assert (isWellFormed url = true) as Hwf by reflexivity.
  exact (conj Hcu (conj Hwf (encodeURL_decodeURIComponent url Hcu Hwf))).
Defined.

(** ** The navigation decision *)

Ltac unfold_m :=
  unfold mbind, mret, mthrow, M_bind, M_ret, M_throw, gets, modify, result, after in *.

Section ListenFacts.

Context `{Browser}.

Lemma isExempt_reads tabId domainName st :
  ∃ v, isExempt tabId domainName st = (inr v, st) ∧ truthy v = exempt_in st tabId domainName.
Proof.
  unfold exempt_in, isExempt. unfold_m.
  destruct (properties (exemptTabs st) !! tabId); eexists; split; reflexivity.
Qed.

(** The decision, as one case analysis on what the handler reads. *)
Lemma onBeforeRequest_unfold o st :
  onBeforeRequest o st =
  if negb (bool_decide (o_frameId o = 0%Z)) || bool_decide (o_tabId o = (-1)%Z)
  then (inr Empty, st)
  else match URL_hostname (o_url o) with
  | None => (inl TypeError, st)
  | Some domainName =>
      if exempt_in st (o_tabId o) domainName then (inr Empty, st)
      else match storage_local st !! page_key domainName with
      | None => (inr Empty, st)
      | Some settings =>
          if truthy (neverAsk settings) then (inr Empty, st)
          else match currentGroup st (o_tabId o) with
          | None => (inr Empty, st)
          | Some groupId =>
              if strict_neq groupId (group settings) then
                match URI.encodeURL (o_url o) with
                | None => (inl URIError, st)
                | Some encoded =>
                    (inr (RedirectUrl
                            (extension_getURL (lit "/background/confirm.html")
                             ++ lit "?url=" ++ encoded
                             ++ lit "&groupId=" ++ ToString (group settings)
                             ++ lit "&tabId=" ++ ToString (VNumber (o_tabId o)))), st)
                end
              else (inr Empty, st)
          end
      end
  end.
Proof.
  unfold onBeforeRequest.
  destruct (negb _ || _); [done |].
  unfold new_URL_hostname, or_throw, tabs_get, storage_local_get,
    sessions_getTabValue, currentGroup.
  destruct (URL_hostname (o_url o)) as [d |]; [| done].
  destruct (isExempt_reads (o_tabId o) d st) as (v & Hv & Htr).
  unfold_m. rewrite Hv, Htr.
  destruct (exempt_in st (o_tabId o) d); [done |].
  destruct (storage_local st !! page_key d) as [p |]; [| done].
  destruct (truthy (neverAsk p)); [done |].
  destruct (truthy (default VUndefined (tab_values st !! o_tabId o))); [| done].
  simpl. destruct (strict_neq _ _); [| done].
  by destruct (URI.encodeURL (o_url o)).
Qed.

(** *** What every handler keeps

    For a preorder [R], [keeps R] goes through [bind]: a handler keeps what
    its calls keep. *)

Section Keeps.

Context (R : relation State) `{!PreOrder R}.

Lemma keeps_ret {A} (a : A) : keeps R (mret a).
Proof. intros st. unfold_m. simpl. reflexivity. Qed.

Lemma keeps_throw {A} (e : exn) : keeps R (mthrow e : M A).
Proof. intros st. unfold_m. simpl. reflexivity. Qed.

Lemma keeps_gets {A} (f : State → A) : keeps R (gets f).
Proof. intros st. unfold_m. simpl. reflexivity. Qed.

Lemma keeps_bind {A B} (c : M A) (f : A → M B) :
  keeps R c → (∀ a, keeps R (f a)) → keeps R (c ≫= f).
Proof.
  intros Hc Hf st. specialize (Hc st). unfold_m.
  destruct (c st) as [[e | a] st']; simpl in *; [done |].
  etrans; [exact Hc | apply Hf].
Qed.

Lemma keeps_modify (f : State → State) : (∀ st, R st (f st)) → keeps R (modify f).
Proof. intros Hf st. unfold_m. simpl. apply Hf. Qed.

Lemma keeps_for_each {A} (l : list A) (f : A → M unit) :
  (∀ a, keeps R (f a)) → keeps R (for_each l f).
Proof.
  intros Hf. induction l as [| a l IH]; simpl.
  - apply keeps_ret.
  - apply keeps_bind; [apply Hf | by intros _].
Qed.

End Keeps.

#[local] Instance log_grows_preorder : PreOrder log_grows.
Proof.
  split.
  - intros st. unfold log_grows. reflexivity.
  - intros st1 st2 st3. unfold log_grows. apply transitivity.
Qed.

#[local] Instance no_entries_preorder : PreOrder no_entries.
Proof. split; unfold no_entries; [by intros st | intros st1 st2 st3; tauto]. Qed.

Ltac keeps_step :=
  lazymatch goal with
  | |- keeps _ (mret _) => apply keeps_ret
  | |- keeps _ (mthrow _) => apply keeps_throw
  | |- keeps _ (gets _) => apply keeps_gets
  | |- keeps _ (_ ≫= _) => apply keeps_bind
  | |- keeps _ (for_each _ _) => apply keeps_for_each
  | |- keeps _ (modify _) => apply keeps_modify
  | |- keeps _ (if ?b then _ else _) => destruct b
  | |- keeps _ (match ?x with _ => _ end) => destruct x
  | |- PreOrder _ => apply _
  | |- ∀ _, _ => intros ?
  end.

(** The handlers, down to [redirectTab], [settle] and [issue]. *)
Ltac keeps_calls :=
  unfold onBeforeRequest, onMessage, onPortMessage, portConnected,
    onWindowRemoved, onTabCreated, onTabActive, toggleNeverAsk, moveTabToGroup,
    postMessage, exemptTab, isExempt, set_properties, new_URL_hostname,
    or_throw, tabs_get, storage_local_get, storage_local_set,
    sessions_getTabValue, sessions_setTabValue, sessions_getWindowValue,
    sessions_setWindowValue;
  repeat keeps_step.

Ltac keeps_handler :=
  keeps_calls; unfold settle, react, redirectTab, issue; repeat keeps_step.

Lemma step_log_grows st e : log_grows st (step st e).
Proof.
  destruct e; cbn [step];
    match goal with |- log_grows _ (after (?c _)) => enough (keeps log_grows c) by done end;
    keeps_handler; unfold log_grows; simpl;
    try reflexivity; try (by apply prefix_app_r).
Qed.

Lemma run_log_grows es : ∀ st, log_grows st (run es st).
Proof.
  induction es as [| e es IH]; intros st; simpl; [reflexivity |].
  etrans; [apply step_log_grows | apply IH].
Qed.

Lemma step_no_entries st e : no_entries st (step st e).
Proof.
  destruct e; cbn [step];
    match goal with |- no_entries _ (after (?c _)) => enough (keeps no_entries c) by done end;
    keeps_handler; unfold no_entries; simpl; try done.
  intros ->. apply delete_empty.
Qed.

Lemma run_no_entries es : ∀ st, no_entries st (run es st).
Proof.
  induction es as [| e es IH]; intros st; simpl; [reflexivity |].
  etrans; [apply step_no_entries | apply IH].
Qed.

(** C1. A top-level navigation of a tab whose group is [G1], to a domain
    whose record is [{group: G2, neverAsk}], without exemption of the tab
    for the domain: when [neverAsk] is [false] and [G1] differs from [G2]
    the handler answers with the confirmation url, which carries the
    encoded destination, [groupId=G2] and the tab id; when [G2] is [G1], or
    [neverAsk] is [true], it answers [{}] and the navigation proceeds.  The
    group of the tab is read as the handler reads it ([currentGroup]). *)
Theorem onBeforeRequest_group_policy st o D G1 G2 never :
  o_frameId o = 0%Z → o_tabId o ≠ (-1)%Z →
  URL_hostname (o_url o) = Some D →
  isWellFormed (o_url o) = true →
  currentGroup st (o_tabId o) = Some G1 →
  storage_local st !! page_key D = Some (mkPageSettings G2 (VBool never)) →
  exempt_in st (o_tabId o) D = false →
  (never = false → G1 ≠ G2 →
   ∃ encoded, URI.encodeURL (o_url o) = Some encoded
     ∧ onBeforeRequest o st =
       (inr (RedirectUrl
               (extension_getURL (lit "/background/confirm.html")
                ++ lit "?url=" ++ encoded
                ++ lit "&groupId=" ++ ToString G2
                ++ lit "&tabId=" ++ ToString (VNumber (o_tabId o)))), st))
  ∧ (never = false → G1 = G2 → onBeforeRequest o st = (inr Empty, st))
  ∧ (never = true → onBeforeRequest o st = (inr Empty, st)).
Proof.
  intros Hframe Htab Hhost Hwf Hgroup Hset Hex.
  rewrite onBeforeRequest_unfold, Hhost, Hex, Hset, Hgroup.
  rewrite (bool_decide_eq_true_2 _ Hframe), (bool_decide_eq_false_2 _ Htab).
  cbn [negb orb neverAsk group truthy]. unfold strict_neq.
  split; [| split].
  - intros -> Hne. destruct (URIFacts.encodeURL_total _ Hwf) as [e He].
    exists e. by rewrite He, (bool_decide_eq_false_2 _ Hne).
  - intros -> <-. by rewrite bool_decide_eq_true_2.
  - by intros ->.
Qed.

(** C4. A navigation to a domain that has no record in the settings store
    proceeds, whatever the tab, its group and its exemptions are. *)
Theorem onBeforeRequest_no_settings st o D :
  URL_hostname (o_url o) = Some D →
  storage_local st !! page_key D = None →
  onBeforeRequest o st = (inr Empty, st).
Proof.
  intros Hhost Hnone. rewrite onBeforeRequest_unfold, Hhost, Hnone.
  destruct (negb _ || _); [done |]. by destruct (exempt_in _ _ _).
Qed.

(** C10. The decision only reads: whatever the request and the state, and
    whatever the handler ends with, it leaves the exemptions, the group of
    every tab, the active group of every window and the settings store (and
    the rest of the state) as they were. *)
Theorem onBeforeRequest_read_only st o :
  after (onBeforeRequest o st) = st.
Proof.
  rewrite onBeforeRequest_unfold.
  repeat match goal with
  | |- context [match ?x with _ => _ end] => destruct x
  end; reflexivity.
Qed.

(** C7. Toggling [neverAsk] for a domain that has no record is ignored:
    the handler returns without exception and the state, the settings store
    in particular, is the one it started from. *)
Theorem toggleNeverAsk_without_record st domainName v :
  storage_local st !! page_key domainName = None →
  toggleNeverAsk domainName v st = (inr tt, st).
Proof.
  intros Hnone. unfold toggleNeverAsk, storage_local_get. unfold_m. by rewrite Hnone.
Qed.

(** C6. A tab created in window [w] gets the active group of [w] as its
    group; when [w] has no active group the tab has no group, and every
    navigation of the tab proceeds. *)
Theorem onTabCreated_inherits st id w :
  let st' := after (onTabCreated id w st) in
  result (onTabCreated id w st) = inr tt
  ∧ result (sessions_getTabValue id st') = result (sessions_getWindowValue w st)
  ∧ (window_values st !! w = None →
     currentGroup st' id = None
     ∧ ∀ o D, o_tabId o = id → URL_hostname (o_url o) = Some D →
              onBeforeRequest o st' = (inr Empty, st')).
Proof.
  unfold onTabCreated, sessions_getTabValue, sessions_getWindowValue,
    sessions_setTabValue.
  unfold_m. cbn [fst snd set_tab_values tab_values].
  split; [done |]. split; [by rewrite lookup_insert_eq |]. intros Hw.
  assert (currentGroup
            (set_tab_values <[id:=default VUndefined (window_values st !! w)]> st) id
          = None) as Hnone.
  { unfold currentGroup. cbn [set_tab_values tab_values].
    by rewrite lookup_insert_eq, Hw. }
  split; [done |]. intros o D <- Hhost.
  rewrite onBeforeRequest_unfold, Hhost, Hnone.
  repeat match goal with
  | |- context [match ?x with _ => _ end] => destruct x
  end; reflexivity.
Qed.

(** *** Redirects and group moves *)

Lemma issue_unfold c st : issue c st = (inr tt, set_log (λ l, l ++ [c]) st).
Proof. reflexivity. Qed.

Lemma for_each_issue {A} (g : A → call) (ps : list A) : ∀ st,
  for_each ps (λ p, issue (g p)) st = (inr tt, set_log (λ l, l ++ map g ps) st).
Proof.
  induction ps as [| p ps IH]; intros st; cbn [for_each map].
  - destruct st. unfold_m. unfold set_log. simpl. by rewrite app_nil_r.
  - unfold mbind, M_bind. rewrite issue_unfold, IH.
    destruct st. unfold set_log. simpl. by rewrite <- app_assoc.
Qed.

Lemma redirectTab_unfold m st :
  redirectTab m st =
  (inr tt,
   set_pending (λ l, l ++ [mkReaction (length (log st)) (m_originalUrl m)])
     (set_log (λ l, l ++ [TabsUpdate (m_tabId m) true (m_redirectUrl m)]) st)).
Proof. reflexivity. Qed.

Lemma moveTabToGroup_unfold m st :
  moveTabToGroup m st =
  (inr tt,
   mkState (exemptTabs st) (ports st) (storage_local st)
     (<[m_tabId m := groupId_of m]> (tab_values st)) (window_values st)
     (log st ++ TabsUpdate (m_tabId m) true (m_redirectUrl m)
        :: map (λ p, PortPostMessage p.2 (MoveTabGroup (m_tabId m) (groupId_of m)))
               (ports st))
     (pending st ++ [mkReaction (length (log st)) (m_originalUrl m)])).
Proof.
  unfold moveTabToGroup, postMessage, sessions_setTabValue.
  unfold mbind at 1 2, M_bind, modify. rewrite redirectTab_unfold.
  unfold mbind, M_bind, gets. rewrite for_each_issue.
  destruct st; unfold set_log, set_pending, set_tab_values; simpl.
  by rewrite <- app_assoc.
Qed.

(** In every run the log has its deletions after their navigations. *)
#[local] Instance issue_then_delete_preorder : PreOrder issue_then_delete.
Proof.
  split.
  - intros st n Hn Hp. eauto.
  - intros st1 st2 st3 H12 H23 n Hn Hp.
    destruct (H12 n Hn Hp) as (n' & Hn' & Hp'). eauto.
Qed.

Lemma outstanding_app l1 l2 : ∀ n,
  outstanding (l1 ++ l2) n = outstanding l1 n ≫= outstanding l2.
Proof.
  induction l1 as [| c l1 IH]; intros n; [done |].
  destruct c; simpl; [apply IH | | apply IH]. destruct n; [done | apply IH].
Qed.

Lemma redirectTab_keeps_order m : keeps issue_then_delete (redirectTab m).
Proof.
  intros st n Hn Hp. rewrite redirectTab_unfold. exists (S n).
  destruct st. unfold after. simpl in *.
  rewrite outstanding_app, Hn, length_app. simpl. split; [done | lia].
Qed.

Lemma settle_keeps_order i fulfilled : keeps issue_then_delete (settle i fulfilled).
Proof.
  intros st n Hn Hp. unfold settle, react. unfold_m.
  destruct (pending st !! i) as [r |] eqn:Hi; [| by eauto].
  pose proof (lookup_lt_Some _ _ _ Hi) as Hlt.
  assert (length (delete i (pending st)) = pred (length (pending st))) as Hdel
    by (rewrite length_delete by eauto; lia).
  destruct n as [| n]; [lia |].
  destruct fulfilled; destruct st; simpl in *.
  - exists n. rewrite outstanding_app, Hn. simpl. split; [done | lia].
  - exists (S n). split; [done | lia].
Qed.

Lemma post_keeps_order port msg :
  keeps issue_then_delete (issue (PortPostMessage port msg)).
Proof.
  intros st n Hn Hp. exists n. rewrite issue_unfold. destruct st. unfold after. simpl in *.
  by rewrite outstanding_app, Hn.
Qed.

Lemma step_issue_then_delete st e : issue_then_delete st (step st e).
Proof.
  destruct e; cbn [step];
    match goal with
    | |- issue_then_delete _ (after (?c _)) => enough (keeps issue_then_delete c) by done
    end;
    keeps_calls;
    try apply redirectTab_keeps_order;
    try apply settle_keeps_order;
    try apply post_keeps_order;
    match goal with
    | |- issue_then_delete ?s _ => intros n Hn Hp; exists n; by destruct s
    end.
Qed.

Lemma run_issue_then_delete es : ∀ st, issue_then_delete st (run es st).
Proof.
  induction es as [| e es IH]; intros st; simpl; [reflexivity |].
  etrans; [apply step_issue_then_delete | apply IH].
Qed.

Lemma reachable_issue_then_delete es storage tabs windows :
  is_Some (outstanding (log (run es (initial storage tabs windows))) 0).
Proof.
  destruct (run_issue_then_delete es (initial storage tabs windows) 0%nat)
    as (n & Hn & _); by eauto.
Qed.

(** C8. Moving a tab to a group twice: after the first call and after the
    second the group of the tab is the group of the message; the second call
    posts the [moveTabGroup] notification on every connected port again
    (after issuing the navigation again) and leaves the exemptions, the
    ports, the settings and the groups of tabs and windows as the first
    call left them. *)
Theorem moveTabToGroup_twice st m :
  let st1 := after (moveTabToGroup m st) in
  let st2 := after (moveTabToGroup m st1) in
  result (moveTabToGroup m st) = inr tt
  ∧ result (moveTabToGroup m st1) = inr tt
  ∧ sessions_getTabValue (m_tabId m) st1 = (inr (groupId_of m), st1)
  ∧ sessions_getTabValue (m_tabId m) st2 = (inr (groupId_of m), st2)
  ∧ log st2 =
      log st1 ++ TabsUpdate (m_tabId m) true (m_redirectUrl m)
        :: map (λ p, PortPostMessage p.2 (MoveTabGroup (m_tabId m) (groupId_of m)))
               (ports st1)
  ∧ exemptTabs st2 = exemptTabs st1
  ∧ ports st2 = ports st1
  ∧ storage_local st2 = storage_local st1
  ∧ tab_values st2 = tab_values st1
  ∧ window_values st2 = window_values st1.
Proof.
  intros st1 st2. subst st2 st1. rewrite !moveTabToGroup_unfold.
  unfold sessions_getTabValue, gets, result, after.
  cbn [fst snd exemptTabs ports storage_local tab_values window_values log pending].
  rewrite !lookup_insert_eq, insert_insert_eq. by repeat split.
Qed.

(** C9. The order of a redirect: [redirectTab] issues the navigation and
    nothing else, and leaves the deletion as the callback of that call.
    Whatever happens next, as long as the callback is pending the
    navigation is in the log, and when its promise settles the deletion of
    the original url is issued after everything in the log (fulfilled) or
    not at all (rejected): the deletion never comes before the
    navigation. *)
Theorem redirectTab_issue_then_delete st m :
  let st1 := after (redirectTab m st) in
  let update := TabsUpdate (m_tabId m) true (m_redirectUrl m) in
  let r := mkReaction (length (log st)) (m_originalUrl m) in
  log st1 = log st ++ [update]
  ∧ pending st1 = pending st ++ [r]
  ∧ ∀ es i fulfilled,
      let st2 := run es st1 in
      pending st2 !! i = Some r →
      log st2 !! issued r = Some update
      ∧ (issued r < length (log st2))%nat
      ∧ log (after (settle i fulfilled st2)) =
          log st2 ++ (if fulfilled then [HistoryDeleteUrl (m_originalUrl m)] else []).
Proof.
  intros st1 update r.
  assert (log st1 = log st ++ [update] ∧ pending st1 = pending st ++ [r]) as [Hlog Hpe].
  { subst st1. rewrite redirectTab_unfold. by destruct st. }
  split; [done |]. split; [done |]. intros es i fulfilled st2 Hi.
  destruct (run_log_grows es st1) as [k Hk]. fold st2 in Hk. rewrite Hlog in Hk.
  assert (log st2 !! issued r = Some update) as Hup.
  { rewrite Hk, <- app_assoc. subst r. cbn [issued].
    by rewrite lookup_app_r, Nat.sub_diag by lia. }
  split; [done |]. split; [by eapply lookup_lt_Some |].
  unfold settle, react. unfold_m. rewrite Hi. subst r. cbn [delete_url].
  destruct fulfilled; destruct st2; simpl; [done | by rewrite app_nil_r].
Qed.

(** *** The exemptions *)

(** In every run of the script the Map entries of [_exemptTabs] are
    empty. *)
Lemma reachable_no_entries es storage tabs windows :
  entries (exemptTabs (run es (initial storage tabs windows))) = ∅.
Proof. by apply run_no_entries. Qed.

Lemma exemptTab_unfold st tabId domainName :
  entries (exemptTabs st) = ∅ →
  exemptTab tabId domainName st =
  (inr tt,
   set_exemptTabs (λ e, mkExemptTabs (entries e) (<[tabId := {[domainName]}]> (properties e)))
     st).
Proof.
  intros He. unfold exemptTab, set_properties. unfold_m. by rewrite He, lookup_empty.
Qed.

(** In a state the script can reach, a grant leaves the tab with the one
    domain of that grant. *)
Lemma exempt_in_exemptTab st tabId domainName d :
  entries (exemptTabs st) = ∅ →
  exempt_in (after (exemptTab tabId domainName st)) tabId d = bool_decide (d = domainName).
Proof.
  intros He. rewrite exemptTab_unfold by done. unfold exempt_in, isExempt. unfold_m.
  cbn [snd fst set_exemptTabs exemptTabs properties]. rewrite lookup_insert_eq.
  cbn [fst truthy]. apply bool_decide_ext. set_solver.
Qed.

(** Right after the grant, the exempted tab navigates to the domain
    without being asked, whatever the groups are. *)
Lemma exempted_navigation_proceeds st o domainName :
  entries (exemptTabs st) = ∅ →
  URL_hostname (o_url o) = Some domainName →
  let st' := after (exemptTab (o_tabId o) domainName st) in
  onBeforeRequest o st' = (inr Empty, st').
Proof.
  intros He Hhost st'. subst st'.
  rewrite onBeforeRequest_unfold, Hhost, exempt_in_exemptTab by done.
  rewrite (bool_decide_eq_true_2 (domainName = domainName) eq_refl).
  by destruct (negb _ || _).
Qed.

Lemma exemptTab_no_entries st tabId domainName :
  entries (exemptTabs st) = ∅ →
  entries (exemptTabs (after (exemptTab tabId domainName st))) = ∅.
Proof. intros He. by rewrite exemptTab_unfold. Qed.

(** Of two grants for one tab, only the second is left. *)
Lemma exemptTab_twice st tabId d1 d2 :
  entries (exemptTabs st) = ∅ → d1 ≠ d2 →
  let st' := after (exemptTab tabId d2 (after (exemptTab tabId d1 st))) in
  exempt_in st' tabId d1 = false ∧ exempt_in st' tabId d2 = true.
Proof.
  intros He Hne st'. subst st'.
  rewrite !exempt_in_exemptTab by by apply exemptTab_no_entries.
  by rewrite bool_decide_eq_false_2, bool_decide_eq_true_2.
Qed.

(** [invalidateExempt] deletes an entry of the Map and leaves the own
    properties, where the exemptions are. *)
Lemma invalidateExempt_properties st m :
  m_method m = lit "invalidateExempt" →
  properties (exemptTabs (after (onPortMessage m st))) = properties (exemptTabs st).
Proof. intros Hm. unfold onPortMessage. by rewrite bool_decide_eq_true_2. Qed.

Lemma invalidateExempt_exempt_in st m tabId d :
  m_method m = lit "invalidateExempt" →
  exempt_in (after (onPortMessage m st)) tabId d = exempt_in st tabId d.
Proof.
  intros Hm. unfold exempt_in, isExempt, result, mbind, M_bind, gets.
  rewrite (invalidateExempt_properties st m Hm). by destruct (_ !! _).
Qed.

(** The decision for an exempted tab is the same after the invalidation. *)
Lemma invalidateExempt_same_decision st m o :
  m_method m = lit "invalidateExempt" →
  result (onBeforeRequest o (after (onPortMessage m st))) = result (onBeforeRequest o st).
Proof.
  intros Hm. rewrite !onBeforeRequest_unfold.
  assert (storage_local (after (onPortMessage m st)) = storage_local st
          ∧ ∀ t, currentGroup (after (onPortMessage m st)) t = currentGroup st t)
    as [Hsl Hcg].
  { unfold onPortMessage. by rewrite bool_decide_eq_true_2. }
  rewrite Hsl. unfold result.
  repeat match goal with
  | |- context [exempt_in (after (onPortMessage m st)) ?t ?d] =>
      rewrite (invalidateExempt_exempt_in st m t d Hm)
  | |- context [currentGroup (after (onPortMessage m st)) ?t] => rewrite (Hcg t)
  | |- context [match ?x with _ => _ end] => destruct x
  end; reflexivity.
Qed.

End ListenFacts.

(** ** Checks of the percent-encoding on concrete strings *)

Example encodeURL_class :
  URI.encodeURL (lit "it's (1)*!") = Some (lit "it%27s%20%281%29%2a%21").
Proof. reflexivity. Qed.

Example encodeURIComponent_marks :
  URI.encodeURIComponent (lit "a-b_c.d!e~f*g'h(i)j") = Some (lit "a-b_c.d!e~f*g'h(i)j").
Proof. reflexivity. Qed.

Example encodeURIComponent_reserved :
  URI.encodeURIComponent (lit "https://a.b/c d?e=f&g#h+i%")
  = Some (lit "https%3A%2F%2Fa.b%2Fc%20d%3Fe%3Df%26g%23h%2Bi%25").
Proof. reflexivity. Qed.

Example encodeURIComponent_utf8 :
  URI.encodeURIComponent [0xE9; 0x20AC; 0xD83D; 0xDE00]
  = Some (lit "%C3%A9%E2%82%AC%F0%9F%98%80").
Proof. reflexivity. Qed.

Example encodeURIComponent_lone_surrogate :
  URI.encodeURIComponent [0x61; 0xD83D] = None
  ∧ URI.encodeURIComponent [0xDE00; 0x61] = None
  ∧ URI.encodeURIComponent [0xD83D; 0x61] = None.
Proof. by repeat split. Qed.

Example decodeURIComponent_utf8 :
  URI.decodeURIComponent (lit "%c3%A9%E2%82%AC%F0%9F%98%80%2a*%41")
  = Some [0xE9; 0x20AC; 0xD83D; 0xDE00; 0x2A; 0x2A; 0x41].
Proof. reflexivity. Qed.

Example decodeURIComponent_errors :
  Forall (λ s, URI.decodeURIComponent (lit s) = None)
    ["%"; "%4"; "a%zz"; "%80"; "%C0%80"; "%C3"; "%C3a9"; "%E2%82";
     "%ED%A0%80"; "%F4%90%80%80"; "%F8%88%80%80%80"; "%E2%82%41"].
Proof. repeat constructor. Qed.

(** ** The decision on the example state *)

(** A tab without group (tab 8) is not asked; tab 7, of group [g1], is
    asked before it enters the shop of group [g2]. *)
Example tab_without_group_proceeds :
  result (onBeforeRequest (H := example_browser) (mkOptions 0 8 shop_url)
            (example_state g2 false)) = inr Empty.
Proof. reflexivity. Qed.

Example confirmation_url :
  result (onBeforeRequest (H := example_browser) to_shop (example_state g2 false))
  = inr (RedirectUrl
           (lit "moz-extension://0a1b/background/confirm.html?url=https%3A%2F%2Fshop.example%2Fcart%3Fid%3D%281%29&groupId=g2&tabId=7")).
Proof. reflexivity. Qed.

(** C2. On the code an exemption outlives its invalidation.  Tab 7 of
    group [g1] navigates to [shop.example], whose record is
    [{group: g2, neverAsk: false}]: the navigation is redirected; once the
    tab is exempted it proceeds; and once [invalidateExempt] was handled
    for the tab it still proceeds, where the specification has it
    redirected again. *)
Theorem invalidateExempt_keeps_exemption :
  let st := example_state g2 false in
  let st1 := run (H := example_browser) [Message confirm_exempt] st in
  let st2 := run (H := example_browser) [PortMessage invalidate] st1 in
  (∃ url, result (onBeforeRequest (H := example_browser) to_shop st) = inr (RedirectUrl url))
  ∧ result (onBeforeRequest (H := example_browser) to_shop st1) = inr Empty
  ∧ result (onBeforeRequest (H := example_browser) to_shop st2) = inr Empty.
Proof. split; [eexists |]; vm_compute; [reflexivity | by split]. Qed.

(** C3. On the code a second grant replaces the first: after
    [exemptTab(7, "shop.example")] and [exemptTab(7, "mail.example")] from
    the initial state, the tab is exempt for the mail and no longer for the
    shop, where the specification has it exempt for both. *)
Theorem exemptTab_second_grant_replaces_first :
  let st := after (exemptTab 7 mail (after (exemptTab 7 shop (initial ∅ ∅ ∅)))) in
  result (isExempt 7 shop st) = inr (VBool false)
  ∧ result (isExempt 7 mail st) = inr (VBool true).
Proof. by vm_compute. Qed.

(** ** The theorems at the example inputs *)

Lemma onBeforeRequest_group_policy_witness :
  let st := example_state g2 false in
  (o_frameId to_shop = 0%Z ∧ o_tabId to_shop ≠ (-1)%Z
   ∧ URL_hostname (Browser := example_browser) (o_url to_shop) = Some shop
   ∧ isWellFormed (o_url to_shop) = true
   ∧ currentGroup st (o_tabId to_shop) = Some g1
   ∧ storage_local st !! page_key shop = Some (mkPageSettings g2 (VBool false))
   ∧ exempt_in st (o_tabId to_shop) shop = false
   ∧ g1 ≠ g2)
  ∧ (∃ encoded, URI.encodeURL (o_url to_shop) = Some encoded
       ∧ onBeforeRequest (H := example_browser) to_shop st =
         (inr (RedirectUrl
                 (extension_getURL (Browser := example_browser) (lit "/background/confirm.html")
                  ++ lit "?url=" ++ encoded
                  ++ lit "&groupId=" ++ ToString g2
                  ++ lit "&tabId=" ++ ToString (VNumber (o_tabId to_shop)))), st))
  ∧ onBeforeRequest (H := example_browser) to_shop (example_state g1 false)
    = (inr Empty, example_state g1 false)
  ∧ onBeforeRequest (H := example_browser) to_shop (example_state g2 true)
    = (inr Empty, example_state g2 true).
Proof.
  intros st.
  assert (o_frameId to_shop = 0%Z) as H1 by reflexivity.
  assert (o_tabId to_shop ≠ (-1)%Z) as H2 by (simpl; lia).
  assert (URL_hostname (Browser := example_browser) (o_url to_shop) = Some shop) as H3
    by reflexivity.
  assert (isWellFormed (o_url to_shop) = true) as H4 by reflexivity.
  assert (∀ g n, currentGroup (example_state g n) (o_tabId to_shop) = Some g1) as H5
    by reflexivity.
  assert (∀ g n, storage_local (example_state g n) !! page_key shop
                 = Some (mkPageSettings g (VBool n))) as H6
    by (intros g n; apply lookup_singleton_eq).
  assert (∀ g n, exempt_in (example_state g n) (o_tabId to_shop) shop = false) as H7
    by reflexivity.
  assert (g1 ≠ g2) as H8 by discriminate.
  split; [by repeat split |]. split; [| split].
  - exact (proj1 (onBeforeRequest_group_policy (H := example_browser)
                    st to_shop shop g1 g2 false H1 H2 H3 H4 (H5 _ _) (H6 _ _) (H7 _ _))
                 eq_refl H8).
  - exact (proj1 (proj2 (onBeforeRequest_group_policy (H := example_browser)
                    (example_state g1 false) to_shop shop g1 g1 false
                    H1 H2 H3 H4 (H5 _ _) (H6 _ _) (H7 _ _)))
                 eq_refl eq_refl).
  - exact (proj2 (proj2 (onBeforeRequest_group_policy (H := example_browser)
                    (example_state g2 true) to_shop shop g1 g2 true
                    H1 H2 H3 H4 (H5 _ _) (H6 _ _) (H7 _ _)))
                 eq_refl).
Defined.

Lemma onBeforeRequest_no_settings_witness :
  let st := example_state g2 false in
  URL_hostname (Browser := example_browser) (o_url to_mail) = Some mail
  ∧ storage_local st !! page_key mail = None
  ∧ onBeforeRequest (H := example_browser) to_mail st = (inr Empty, st).
Proof.
  intros st.
  assert (URL_hostname (Browser := example_browser) (o_url to_mail) = Some mail) as H1
    by reflexivity.
  assert (storage_local st !! page_key mail = None) as H2 by (vm_compute; reflexivity).
  exact (conj H1 (conj H2 (onBeforeRequest_no_settings (H := example_browser)
                             st to_mail mail H1 H2))).
Defined.

Lemma toggleNeverAsk_without_record_witness :
  let st := example_state g2 false in
  storage_local st !! page_key mail = None
  ∧ toggleNeverAsk mail (VBool true) st = (inr tt, st).
Proof.
  intros st.
  assert (storage_local st !! page_key mail = None) as H1 by (vm_compute; reflexivity).
  exact (conj H1 (toggleNeverAsk_without_record st mail (VBool true) H1)).
Defined.

(** Tab 9 is created in window 3, which has no active group, and then
    navigates to the shop. *)
Lemma onTabCreated_inherits_witness :
  let st := example_state g2 false in
  let st' := after (onTabCreated 9 3 st) in
  let o := mkOptions 0 9 shop_url in
  window_values st !! 3%Z = None
  ∧ URL_hostname (Browser := example_browser) (o_url o) = Some shop
  ∧ currentGroup st' 9 = None
  ∧ onBeforeRequest (H := example_browser) o st' = (inr Empty, st').
Proof.
  intros st st' o.
  assert (window_values st !! 3%Z = None) as H1 by reflexivity.
  assert (URL_hostname (Browser := example_browser) (o_url o) = Some shop) as H2
    by reflexivity.
  destruct (onTabCreated_inherits (H := example_browser) st 9 3) as (_ & _ & Hnew).
  destruct (Hnew H1) as [Hgroup Hnav].
  exact (conj H1 (conj H2 (conj Hgroup (Hnav o shop eq_refl H2)))).
Defined.

(** The redirect of [confirm_exempt], whose promise is then fulfilled. *)
Lemma redirectTab_issue_then_delete_witness :
  let st := example_state g2 false in
  let st1 := after (redirectTab confirm_exempt st) in
  let r := mkReaction 0 (m_originalUrl confirm_exempt) in
  pending (run (H := example_browser) [] st1) !! 0%nat = Some r
  ∧ log (after (settle 0 true st1)) =
      [TabsUpdate 7 true shop_url; HistoryDeleteUrl (m_originalUrl confirm_exempt)].
Proof.
  intros st st1 r.
  assert (pending (run (H := example_browser) [] st1) !! 0%nat = Some r) as H1
    by reflexivity.
  destruct (redirectTab_issue_then_delete (H := example_browser) st confirm_exempt)
    as (_ & _ & Hlater).
  destruct (Hlater [] 0%nat true H1) as (_ & _ & Hlog).
  exact (conj H1 Hlog).
Defined.

(** * Further properties *)

(** ** The percent-encoding *)

Module URIMore.
Import URI URIFacts.

(** [encodeURL], one code point of the input at a time. *)
Lemma encodeURL_cons_unescaped c rest :
  uriUnescaped c = true →
  encodeURL (c :: rest)
  = r ← encodeURL rest; Some ((if in_class c then escape_char c else [c]) ++ r).
Proof.
  intros Hu. unfold encodeURL. cbn [encodeURIComponent]. rewrite Hu.
  by destruct (encodeURIComponent rest).
Qed.

Lemma encodeURL_cons_pair c c2 rest :
  uriUnescaped c = false → is_leading_surrogate c = true →
  is_trailing_surrogate c2 = true →
  encodeURL (c :: c2 :: rest)
  = r ← encodeURL rest;
    Some (escape_octets (utf8_encode (surrogate_pair_to_code_point c c2)) ++ r).
Proof.
  intros Hu Hl Ht. unfold encodeURL. cbn [encodeURIComponent]. rewrite Hu, Hl, Ht.
  destruct (encodeURIComponent rest); [| done].
  cbn [mbind option_bind fmap option_fmap option_map].
  by rewrite replace_class_app, replace_class_escape_octets.
Qed.

Lemma encodeURL_cons_single c rest :
  uriUnescaped c = false → is_leading_surrogate c = false →
  is_trailing_surrogate c = false →
  encodeURL (c :: rest)
  = r ← encodeURL rest; Some (escape_octets (utf8_encode c) ++ r).
Proof.
  intros Hu Hl Ht. unfold encodeURL. cbn [encodeURIComponent]. rewrite Hu, Hl, Ht.
  destruct (encodeURIComponent rest); [| done].
  cbn [mbind option_bind fmap option_fmap option_map].
  by rewrite replace_class_app, replace_class_escape_octets.
Qed.

(** Induction on the code points of a string that [encodeURL] accepts. *)
Lemma encodeURL_ind (P : jsstring → jsstring → Prop) :
  P [] [] →
  (∀ c rest r, uriUnescaped c = true → encodeURL rest = Some r → P rest r →
     P (c :: rest) ((if in_class c then escape_char c else [c]) ++ r)) →
  (∀ c c2 rest r, uriUnescaped c = false → is_leading_surrogate c = true →
     is_trailing_surrogate c2 = true → encodeURL rest = Some r → P rest r →
     P (c :: c2 :: rest)
       (escape_octets (utf8_encode (surrogate_pair_to_code_point c c2)) ++ r)) →
  (∀ c rest r, uriUnescaped c = false → is_leading_surrogate c = false →
     is_trailing_surrogate c = false → encodeURL rest = Some r → P rest r →
     P (c :: rest) (escape_octets (utf8_encode c) ++ r)) →
  ∀ s e, encodeURL s = Some e → P s e.
Proof.
  intros Hnil Hun Hpair Hsingle s.
  enough (∀ n s, (length s ≤ n)%nat → ∀ e, encodeURL s = Some e → P s e) by eauto.
  clear s. induction n as [| n IH]; intros [| c rest] Hlen e He;
    try (by injection He as <-); simpl in Hlen; [lia |].
  destruct (uriUnescaped c) eqn:Hu.
  - rewrite encodeURL_cons_unescaped in He by done.
    destruct (encodeURL rest) as [r |] eqn:Hr; [| done].
    injection He as <-. apply Hun; [done | done |]. apply IH; [lia | done].
  - destruct (is_leading_surrogate c) eqn:Hl.
    + destruct rest as [| c2 rest'];
        [unfold encodeURL in He; cbn [encodeURIComponent] in He;
         by rewrite Hu, Hl in He |].
      destruct (is_trailing_surrogate c2) eqn:Ht;
        [| unfold encodeURL in He; cbn [encodeURIComponent] in He;
           by rewrite Hu, Hl, Ht in He].
      rewrite encodeURL_cons_pair in He by done.
      destruct (encodeURL rest') as [r |] eqn:Hr; [| done].
      injection He as <-. simpl in Hlen. apply Hpair; try done. apply IH; [lia | done].
    + destruct (is_trailing_surrogate c) eqn:Ht;
        [unfold encodeURL in He; cbn [encodeURIComponent] in He;
         by rewrite Hu, Hl, Ht in He |].
      rewrite encodeURL_cons_single in He by done.
      destruct (encodeURL rest) as [r |] eqn:Hr; [| done].
      injection He as <-. apply Hsingle; try done. apply IH; [lia | done].
Qed.

Lemma utf8_encode_octets cp : cp ≤ 0x10FFFF → Forall (λ b, b < 256) (utf8_encode cp).
Proof.
  intros Hcp. unfold utf8_encode.
  repeat match goal with
  | |- context [?a <=? ?b] => destruct (a <=? b) eqn:?; tests
  end; repeat constructor; ndiv.
Qed.

Lemma utf8_encode_length cp : (1 ≤ length (utf8_encode cp) ≤ 4)%nat.
Proof.
  unfold utf8_encode.
  repeat match goal with
  | |- context [?a <=? ?b] => destruct (a <=? b)
  end; simpl; lia.
Qed.

Lemma utf8_encode_length_bmp cp : cp < 65536 → (length (utf8_encode cp) ≤ 3)%nat.
Proof.
  intros Hcp. unfold utf8_encode.
  repeat match goal with
  | |- context [?a <=? ?b] => destruct (a <=? b) eqn:?; tests
  end; simpl; lia.
Qed.

Lemma escape_octets_length bs : length (escape_octets bs) = (3 * length bs)%nat.
Proof. induction bs as [| b bs IH]; simpl in *; lia. Qed.

Lemma hex_digit_upper_safe d : d < 16 → url_safe (hex_digit_upper d) = true.
Proof.
  intros Hd.
  assert (d = 0 ∨ d = 1 ∨ d = 2 ∨ d = 3 ∨ d = 4 ∨ d = 5 ∨ d = 6 ∨ d = 7 ∨ d = 8
          ∨ d = 9 ∨ d = 10 ∨ d = 11 ∨ d = 12 ∨ d = 13 ∨ d = 14 ∨ d = 15) as Hc by lia.
  repeat (destruct Hc as [-> | Hc]; [reflexivity |]). by subst.
Qed.

Lemma escape_octets_safe bs :
  Forall (λ b, b < 256) bs → Forall (λ c, url_safe c = true) (escape_octets bs).
Proof.
  induction 1 as [| b bs Hb _ IH]; [constructor |].
  change (escape_octets (b :: bs)) with (escape_octet b ++ escape_octets bs).
  apply Forall_app. split; [| done].
  repeat constructor; apply hex_digit_upper_safe; ndiv.
Qed.

Lemma unescaped_chunk_safe c :
  uriUnescaped c = true →
  Forall (λ c, url_safe c = true) (if in_class c then escape_char c else [c]).
Proof.
  intros Hu. destruct (in_class c) eqn:Hc.
  - unfold in_class in Hc. apply bool_decide_eq_true in Hc.
    repeat (apply elem_of_cons in Hc as [-> | Hc]; [by repeat constructor |]).
    by apply elem_of_nil in Hc.
  - repeat constructor. unfold uriUnescaped, is_mark in Hu. unfold url_safe.
    destruct (is_alpha c || is_digit c); [done |]. cbn [orb] in *.
    apply bool_decide_eq_true in Hu. apply bool_decide_eq_false in Hc.
    apply bool_decide_eq_true.
    repeat (apply elem_of_cons in Hu as [-> | Hu];
            [first [set_solver | exfalso; apply Hc; set_solver] |]).
    by apply elem_of_nil in Hu.
Qed.

Lemma encodeURL_safe_chunks s e :
  encodeURL s = Some e → code_units s → Forall (λ c, url_safe c = true) e.
Proof.
  revert s e.
  apply (encodeURL_ind (λ s e, code_units s → Forall (λ c, url_safe c = true) e)).
  - constructor.
  - intros c rest r Hu _ IH Hcu. apply Forall_cons in Hcu as [_ Hcu].
    apply Forall_app. split; [by apply unescaped_chunk_safe | by apply IH].
  - intros c c2 rest r _ Hl Ht _ IH Hcu.
    apply Forall_cons in Hcu as [_ Hcu]. apply Forall_cons in Hcu as [_ Hcu].
    apply Forall_app. split; [| by apply IH].
    apply escape_octets_safe, utf8_encode_octets.
    destruct (pair_scalar c c2 Hl Ht) as [_ [? _]]. done.
  - intros c rest r _ _ _ _ IH Hcu. apply Forall_cons in Hcu as [Hc Hcu].
    apply Forall_app. split; [| by apply IH].
    apply escape_octets_safe, utf8_encode_octets. lia.
Qed.

Lemma encodeURL_wellformed s e : encodeURL s = Some e → isWellFormed s = true.
Proof.
  revert s e. apply (encodeURL_ind (λ s e, isWellFormed s = true)).
  - done.
  - intros c rest r Hu _ IH. cbn [isWellFormed].
    destruct (uriUnescaped_ascii c Hu) as [Hc _].
    by destruct (ascii_not_surrogate c Hc) as [-> ->].
  - intros c c2 rest r _ Hl Ht _ IH. cbn [isWellFormed]. by rewrite Hl, Ht.
  - intros c rest r _ Hl Ht _ IH. cbn [isWellFormed]. by rewrite Hl, Ht.
Qed.

Lemma encodeURL_decode s e :
  code_units s → encodeURL s = Some e → decodeURIComponent e = Some s.
Proof.
  intros Hcu He. pose proof (encodeURL_wellformed s e He) as Hwf.
  destruct (encode_decode_bounded (length s) s) as (e' & He' & Hdec); try done.
  unfold encodeURL in He. rewrite He' in He. injection He as <-. by apply Hdec.
Qed.

Lemma escape_char_length_class c : in_class c = true → length (escape_char c) = 3%nat.
Proof.
  unfold in_class. intros Hc%bool_decide_eq_true.
  repeat (apply elem_of_cons in Hc as [-> | Hc]; [reflexivity |]).
  by apply elem_of_nil in Hc.
Qed.

Lemma encodeURL_length_chunks s e :
  encodeURL s = Some e → code_units s →
  (length s ≤ length e ≤ 9 * length s)%nat.
Proof.
  revert s e.
  apply (encodeURL_ind
           (λ s e, code_units s → (length s ≤ length e ≤ 9 * length s)%nat)).
  - simpl. lia.
  - intros c rest r Hu _ IH Hcu. apply Forall_cons in Hcu as [_ Hcu].
    specialize (IH Hcu). rewrite length_app. cbn [length].
    destruct (in_class c) eqn:Hc; [rewrite escape_char_length_class by done |];
      simpl; lia.
  - intros c c2 rest r _ Hl Ht _ IH Hcu.
    apply Forall_cons in Hcu as [_ Hcu]. apply Forall_cons in Hcu as [_ Hcu].
    specialize (IH Hcu). rewrite length_app, escape_octets_length. cbn [length].
    pose proof (utf8_encode_length (surrogate_pair_to_code_point c c2)). lia.
  - intros c rest r _ _ _ _ IH Hcu. apply Forall_cons in Hcu as [Hc Hcu].
    specialize (IH Hcu). rewrite length_app, escape_octets_length. cbn [length].
    pose proof (utf8_encode_length c). pose proof (utf8_encode_length_bmp c Hc). lia.
Qed.

End URIMore.

(** X1. Every code unit of an encoded url is a letter, a digit, one of
    [- _ . ~] or the [%] of an escape: the characters [! ' ( ) *] are gone,
    and so is every character that delimits a part of a url
    ([& = ? # / :] and the like). *)
Theorem encodeURL_safe (url e : jsstring) :
  code_units url → URI.encodeURL url = Some e →
  Forall (λ c, url_safe c = true) e.
Proof. intros Hcu He. by apply (URIMore.encodeURL_safe_chunks url). Qed.

(** X2. [encodeURL] throws exactly on the strings that have an unpaired
    surrogate. *)
Theorem encodeURL_throws_iff (url : jsstring) :
  URI.encodeURL url = None ↔ isWellFormed url = false.
Proof.
  split.
  - intros Hnone. destruct (isWellFormed url) eqn:Hwf; [| done].
    destruct (URIFacts.encodeURL_total url Hwf) as [e He]. congruence.
  - intros Hwf. destruct (URI.encodeURL url) as [e |] eqn:He; [| done].
    apply URIMore.encodeURL_wellformed in He. congruence.
Qed.

(** X3. [encodeURL] is injective: two urls with the same encoding are the
    same url. *)
Theorem encodeURL_injective (url1 url2 e : jsstring) :
  code_units url1 → code_units url2 →
  URI.encodeURL url1 = Some e → URI.encodeURL url2 = Some e → url1 = url2.
Proof.
  intros Hcu1 Hcu2 He1 He2.
  apply URIMore.encodeURL_decode in He1; [| done].
  apply URIMore.encodeURL_decode in He2; [| done]. congruence.
Qed.

(** X4. The encoding is at least as long as the url and at most nine times
    as long. *)
Theorem encodeURL_length (url e : jsstring) :
  code_units url → URI.encodeURL url = Some e →
  (length url ≤ length e ≤ 9 * length url)%nat.
Proof. intros Hcu He. by apply URIMore.encodeURL_length_chunks. Qed.

(** ** The navigation decision *)

Section DecisionMore.

Context `{Browser}.

(** X5. The handler redirects only a main-frame request of a tab to a
    domain that has a record, whose [neverAsk] is falsy, for which the tab
    is not exempt, and whose group differs from the group that the tab
    has; the url it answers with is then the confirmation url. *)
Theorem onBeforeRequest_redirect_only_if st o url :
  result (onBeforeRequest o st) = inr (RedirectUrl url) →
  o_frameId o = 0%Z ∧ o_tabId o ≠ (-1)%Z
  ∧ ∃ D settings G encoded,
      URL_hostname (o_url o) = Some D
      ∧ exempt_in st (o_tabId o) D = false
      ∧ storage_local st !! page_key D = Some settings
      ∧ truthy (neverAsk settings) = false
      ∧ currentGroup st (o_tabId o) = Some G
      ∧ G ≠ group settings
      ∧ URI.encodeURL (o_url o) = Some encoded
      ∧ url = extension_getURL (lit "/background/confirm.html")
              ++ lit "?url=" ++ encoded
              ++ lit "&groupId=" ++ ToString (group settings)
              ++ lit "&tabId=" ++ ToString (VNumber (o_tabId o)).
Proof.
  rewrite onBeforeRequest_unfold. unfold result.
  destruct (bool_decide (o_frameId o = 0%Z)) eqn:Hf; [| done].
  destruct (bool_decide (o_tabId o = (-1)%Z)) eqn:Ht; [done |].
  apply bool_decide_eq_true in Hf. apply bool_decide_eq_false in Ht.
  cbn [negb orb].
  destruct (URL_hostname (o_url o)) as [D |] eqn:Hhost; [| done].
  destruct (exempt_in st (o_tabId o) D) eqn:Hex; [done |].
  destruct (storage_local st !! page_key D) as [settings |] eqn:Hset; [| done].
  destruct (truthy (neverAsk settings)) eqn:Hn; [done |].
  destruct (currentGroup st (o_tabId o)) as [G |] eqn:HG; [| done].
  unfold strict_neq. destruct (bool_decide (G = group settings)) eqn:Hg; [done |].
  apply bool_decide_eq_false in Hg. cbn [negb].
  destruct (URI.encodeURL (o_url o)) as [encoded |] eqn:Henc; [| done].
  intros Heq. split; [done |]. split; [done |].
  exists D, settings, G, encoded. repeat split; try done. symmetry.
  exact (f_equal (λ r : exn + BlockingResponse,
                    match r with inr (RedirectUrl u) => u | _ => [] end) Heq).
Qed.


(** X7. A tab without group is never asked, and neither is any tab on its
    way to a domain whose [neverAsk] is truthy, or to a domain for which it
    is exempt: the navigation proceeds, whatever the groups are. *)
Theorem onBeforeRequest_proceeds st o D :
  URL_hostname (o_url o) = Some D →
  currentGroup st (o_tabId o) = None
  ∨ exempt_in st (o_tabId o) D = true
  ∨ (∃ settings, storage_local st !! page_key D = Some settings
                 ∧ truthy (neverAsk settings) = true) →
  onBeforeRequest o st = (inr Empty, st).
Proof.
  intros Hhost Hcases. rewrite onBeforeRequest_unfold, Hhost.
  destruct (negb _ || _); [done |].
  destruct (exempt_in st (o_tabId o) D) eqn:Hex; [done |].
  destruct Hcases as [Hg | [Hx | (settings & Hs & Hn)]]; [| done |].
  - rewrite Hg. destruct (storage_local st !! page_key D) as [settings |]; [| done].
    by destruct (truthy (neverAsk settings)).
  - by rewrite Hs, Hn.
Qed.

End DecisionMore.

(** ** Messages and the decisions that follow them *)

Section FlowMore.

Context `{Browser}.


Lemma toggleNeverAsk_unfold st domainName v settings :
  storage_local st !! page_key domainName = Some settings →
  toggleNeverAsk domainName v st
  = (inr tt,
     set_storage_local <[page_key domainName := mkPageSettings (group settings) v]> st).
Proof.
  intros Hs. unfold toggleNeverAsk, storage_local_get, storage_local_set.
  unfold_m. by rewrite Hs.
Qed.

Lemma exempt_in_properties st1 st2 tabId d :
  properties (exemptTabs st1) !! tabId = properties (exemptTabs st2) !! tabId →
  exempt_in st1 tabId d = exempt_in st2 tabId d.
Proof.
  intros Hp. unfold exempt_in, isExempt. unfold_m. rewrite Hp.
  by destruct (properties (exemptTabs st2) !! tabId).
Qed.

(** The result of the decision is a function of what the handler reads:
    the exemptions of the tab, the record of the domain and the group of
    the tab. *)
Lemma decision_snapshot st1 st2 o :
  properties (exemptTabs st1) !! o_tabId o = properties (exemptTabs st2) !! o_tabId o →
  (∀ D, URL_hostname (o_url o) = Some D →
        storage_local st1 !! page_key D = storage_local st2 !! page_key D) →
  tab_values st1 !! o_tabId o = tab_values st2 !! o_tabId o →
  result (onBeforeRequest o st1) = result (onBeforeRequest o st2).
Proof.
  intros Hp Hs Ht. rewrite !onBeforeRequest_unfold.
  destruct (negb _ || _); [done |].
  destruct (URL_hostname (o_url o)) as [D |] eqn:Hhost; [| done].
  rewrite (exempt_in_properties st1 st2 _ D Hp), (Hs D eq_refl).
  unfold currentGroup. rewrite Ht.
  destruct (exempt_in st2 (o_tabId o) D); [done |].
  destruct (storage_local st2 !! page_key D) as [settings |]; [| done].
  destruct (truthy (neverAsk settings)); [done |].
  destruct (truthy (default VUndefined (tab_values st2 !! o_tabId o))); [| done].
  destruct (strict_neq _ _); [| done].
  by destruct (URI.encodeURL (o_url o)).
Qed.


Lemma method_redirectTab_not_neverAsk m :
  m_method m = lit "redirectTab" → m_method m ≠ lit "neverAsk".
Proof. intros -> Heq. by apply (f_equal length) in Heq. Qed.

(** The handler of a [redirectTab] message: the grant, when [exempt] is
    truthy, and then the move or the redirect. *)
Lemma onMessage_redirectTab m st :
  m_method m = lit "redirectTab" →
  onMessage m st =
  match (if truthy (m_exempt m) then
           domainName ← new_URL_hostname (m_redirectUrl m);
           exemptTab (m_tabId m) domainName
         else mret tt) st with
  | (inr _, st1) =>
      match m_groupId m with
      | Some _ => moveTabToGroup m
      | None => redirectTab m
      end st1
  | (inl e, st1) => (inl e, st1)
  end.
Proof.
  intros Hm. unfold onMessage.
  rewrite (bool_decide_eq_false_2 _ (method_redirectTab_not_neverAsk m Hm)).
  rewrite (bool_decide_eq_true_2 _ Hm). reflexivity.
Qed.

(** X9. A confirmed move does not ask again: once the [redirectTab] message
    with [groupId] was handled, the navigation of that tab to a domain
    whose record has this group proceeds. *)
Theorem group_move_then_navigation st m G o D settings :
  m_method m = lit "redirectTab" →
  m_groupId m = Some G →
  result (onMessage m st) = inr tt →
  let st' := after (onMessage m st) in
  o_tabId o = m_tabId m →
  URL_hostname (o_url o) = Some D →
  storage_local st' !! page_key D = Some settings →
  group settings = G →
  onBeforeRequest o st' = (inr Empty, st').
Proof.
  intros Hm HG Hres st' Htab Hhost Hset Hgroup.
  assert (tab_values st' !! m_tabId m = Some G) as Htv.
  { subst st'. revert Hres. rewrite (onMessage_redirectTab m st Hm), HG.
    unfold result, after.
    match goal with
    | |- context [match ?c with _ => _ end] => destruct c as [[e | []] st1]
    end; [done |].
    intros _. rewrite moveTabToGroup_unfold. cbn [snd tab_values].
    unfold groupId_of. rewrite HG. apply lookup_insert_eq. }
  rewrite onBeforeRequest_unfold, Hhost, Hset.
  destruct (negb _ || _); [done |]. destruct (exempt_in _ _ _); [done |].
  destruct (truthy (neverAsk settings)); [done |].
  unfold currentGroup. rewrite Htab, Htv. cbn [default id].
  destruct (truthy G); [| done]. unfold strict_neq.
  by rewrite bool_decide_eq_true_2.
Qed.


End FlowMore.

(** ** Groups of tabs and windows *)

Section GroupsMore.

Context `{Browser}.

Lemma onTabActive_unfold st tabId windowId :
  onTabActive tabId windowId st =
  (inr tt,
   if strict_neq (default VUndefined (tab_values st !! tabId))
                 (default VUndefined (window_values st !! windowId))
   then set_window_values <[windowId := default VUndefined (tab_values st !! tabId)]> st
   else st).
Proof.
  unfold onTabActive, sessions_getTabValue, sessions_getWindowValue,
    sessions_setWindowValue.
  unfold_m. by destruct (strict_neq _ _).
Qed.

Lemma onTabCreated_unfold st id windowId :
  onTabCreated id windowId st =
  (inr tt, set_tab_values <[id := default VUndefined (window_values st !! windowId)]> st).
Proof. reflexivity. Qed.

(** X11. The window follows the tab that is activated: after
    [onTabActive] the active group of the window is the group of the tab,
    a tab that is created in the window next gets this group, and the
    groups of the tabs, the settings and the exemptions are untouched. *)
Theorem onTabActive_then_onTabCreated st tabId windowId id :
  let st1 := after (onTabActive tabId windowId st) in
  let st2 := after (onTabCreated id windowId st1) in
  result (sessions_getWindowValue windowId st1) = result (sessions_getTabValue tabId st)
  ∧ result (sessions_getTabValue id st2) = result (sessions_getTabValue tabId st)
  ∧ tab_values st1 = tab_values st
  ∧ storage_local st1 = storage_local st
  ∧ exemptTabs st1 = exemptTabs st.
Proof.
  intros st1 st2. subst st2 st1.
  rewrite onTabCreated_unfold, onTabActive_unfold. unfold after. cbn [snd].
  unfold sessions_getWindowValue, sessions_getTabValue, gets, result. cbn [fst].
  unfold strict_neq.
  destruct (bool_decide (default VUndefined (tab_values st !! tabId)
                         = default VUndefined (window_values st !! windowId))) eqn:He;
    cbn [negb].
  - apply bool_decide_eq_true in He. cbn [set_tab_values tab_values].
    rewrite lookup_insert_eq. cbn [default]. by rewrite He.
  - destruct st. cbn. by rewrite !lookup_insert_eq.
Qed.

(** X12. Activating the same tab again changes nothing: [onTabActive] is
    idempotent. *)
Theorem onTabActive_idempotent st tabId windowId :
  let st1 := after (onTabActive tabId windowId st) in
  onTabActive tabId windowId st1 = (inr tt, st1).
Proof.
  intros st1. subst st1. rewrite !onTabActive_unfold. unfold after. cbn [snd].
  unfold strict_neq.
  destruct (bool_decide (default VUndefined (tab_values st !! tabId)
                         = default VUndefined (window_values st !! windowId))) eqn:He;
    cbn [negb].
  - by rewrite He.
  - cbn [set_window_values tab_values window_values]. rewrite lookup_insert_eq.
    cbn [default]. by rewrite bool_decide_eq_true_2.
Qed.

(** X13. The [activeGroup] message of a port sets the group that the next
    tab of the window gets, and leaves the group of every existing tab as
    it is. *)
Theorem activeGroup_message_then_onTabCreated st m id :
  m_method m = lit "activeGroup" →
  let st1 := after (onPortMessage m st) in
  let st2 := after (onTabCreated id (m_windowId m) st1) in
  result (onPortMessage m st) = inr tt
  ∧ result (sessions_getTabValue id st2) = inr (groupId_of m)
  ∧ tab_values st1 = tab_values st.
Proof.
  intros Hm st1 st2.
  assert (onPortMessage m st
          = (inr tt, set_window_values <[m_windowId m := groupId_of m]> st)) as Hon.
  { unfold onPortMessage.
    rewrite bool_decide_eq_false_2
      by (rewrite Hm; intros Heq; by apply (f_equal length) in Heq).
    by rewrite (bool_decide_eq_true_2 _ Hm). }
  subst st2 st1. rewrite Hon, onTabCreated_unfold. unfold after, result. cbn [fst snd].
  split; [done |]. split; [| done].
  unfold sessions_getTabValue, gets.
  cbn [fst set_tab_values set_window_values tab_values window_values].
  by rewrite !lookup_insert_eq.
Qed.

Lemma decision_leaves_state st o : after (onBeforeRequest o st) = st.
Proof.
  rewrite onBeforeRequest_unfold.
  repeat match goal with
  | |- context [match ?x with _ => _ end] => destruct x
  end; reflexivity.
Qed.

(** X14. Only the creation of a tab and a message of the confirmation page
    change the group of a tab: a web request, a port message, a
    connection, the removal of a window, the activation of a tab and the
    settling of a promise leave the groups of all tabs as they are. *)
Theorem tab_groups_change_only st e :
  tab_values (step st e) ≠ tab_values st →
  (∃ id windowId, e = TabCreated id windowId) ∨ (∃ m, e = Message m).
Proof.
  intros Hne. destruct e as [o | m | m | w p | w | id w | t w | i f];
    [| by right; eexists | | | | by left; eexists _, _ | |]; exfalso; apply Hne;
    cbn [step].
  - by rewrite decision_leaves_state.
  - unfold onPortMessage. by repeat case_bool_decide.
  - done.
  - done.
  - rewrite onTabActive_unfold. unfold after. cbn [snd]. by destruct (strict_neq _ _).
  - unfold settle, react. unfold_m. destruct (pending st !! i); [| done].
    by destruct f.
Qed.

End GroupsMore.

(** ** What holds in every run *)

Section RunsMore.

Context `{Browser}.

Ltac keeps_step :=
  lazymatch goal with
  | |- keeps _ (mret _) => apply keeps_ret
  | |- keeps _ (mthrow _) => apply keeps_throw
  | |- keeps _ (gets _) => apply keeps_gets
  | |- keeps _ (_ ≫= _) => apply keeps_bind
  | |- keeps _ (for_each _ _) => apply keeps_for_each
  | |- keeps _ (modify _) => apply keeps_modify
  | |- keeps _ (if ?b then _ else _) => destruct b
  | |- keeps _ (match ?x with _ => _ end) => destruct x
  | |- PreOrder _ => apply _
  | |- ∀ _, _ => intros ?
  end.

#[local] Instance records_kept_preorder : PreOrder records_kept.
Proof.
  split.
  - by intros st key.
  - intros st1 st2 st3 H12 H23 key. by rewrite H23, H12.
Qed.

Lemma toggleNeverAsk_records_kept domainName v :
  keeps records_kept (toggleNeverAsk domainName v).
Proof.
  intros st key. destruct (storage_local st !! page_key domainName) as [p |] eqn:Hp.
  - rewrite (toggleNeverAsk_unfold st domainName v p Hp). unfold after.
    cbn [snd set_storage_local storage_local].
    destruct (decide (key = page_key domainName)) as [-> | Hne].
    + by rewrite lookup_insert_eq, Hp.
    + by rewrite lookup_insert_ne.
  - unfold toggleNeverAsk, storage_local_get. unfold_m. by rewrite Hp.
Qed.

Lemma step_records_kept st e : records_kept st (step st e).
Proof.
  destruct e; cbn [step];
    match goal with
    | |- records_kept _ (after (?c _)) => enough (keeps records_kept c) by done
    end;
    unfold onBeforeRequest, onMessage, onPortMessage, portConnected,
      onWindowRemoved, onTabCreated, onTabActive, moveTabToGroup, postMessage,
      exemptTab, isExempt, set_properties, new_URL_hostname, or_throw, tabs_get,
      storage_local_get, sessions_getTabValue, sessions_setTabValue,
      sessions_getWindowValue, sessions_setWindowValue, settle, react,
      redirectTab, issue;
    repeat keeps_step;
    try apply toggleNeverAsk_records_kept;
    by intros key.
Qed.

Lemma run_records_kept es : ∀ st, records_kept st (run es st).
Proof.
  induction es as [| e es IH]; intros st; simpl; [reflexivity |].
  etrans; [apply step_records_kept | apply IH].
Qed.

(** X15. The script never creates or deletes a record and never changes the
    group of one: after any events, every key of the settings store holds
    a record of the same group as before, or none as before. *)
Theorem records_keep_their_group es st key :
  group <$> (storage_local (run es st) !! key) = group <$> (storage_local st !! key).
Proof. apply run_records_kept. Qed.

(** X16. In every run of the script [exemptTab] returns: the branch that
    would throw a TypeError on a missing Set is never taken. *)
Theorem exemptTab_never_throws es storage tabs windows tabId domainName :
  result (exemptTab tabId domainName (run es (initial storage tabs windows))) = inr tt.
Proof.
  rewrite exemptTab_unfold; [done |]. apply reachable_no_entries.
Qed.

(** X17. A grant is for its tab only: [exemptTab] leaves the exemptions of
    every other tab as they are. *)
Theorem exemptTab_other_tab st tabId domainName tabId' d :
  tabId' ≠ tabId →
  exempt_in (after (exemptTab tabId domainName st)) tabId' d = exempt_in st tabId' d.
Proof.
  intros Hne. apply exempt_in_properties.
  unfold exemptTab, set_properties. unfold_m.
  destruct (negb _); [by cbn; rewrite lookup_insert_ne |].
  destruct (properties (exemptTabs st) !! tabId); [| done].
  by cbn; rewrite lookup_insert_ne.
Qed.



(** X19. The result of the decision depends on three things only: the
    exemptions of the tab, the record of the domain and the group of the
    tab.  Two states that agree on them give the same answer, whatever
    their ports, windows, other tabs and other records are. *)
Theorem onBeforeRequest_depends_on st1 st2 o :
  properties (exemptTabs st1) !! o_tabId o = properties (exemptTabs st2) !! o_tabId o →
  (∀ D, URL_hostname (o_url o) = Some D →
        storage_local st1 !! page_key D = storage_local st2 !! page_key D) →
  tab_values st1 !! o_tabId o = tab_values st2 !! o_tabId o →
  result (onBeforeRequest o st1) = result (onBeforeRequest o st2).
Proof. apply decision_snapshot. Qed.

End RunsMore.

(** ** The ports *)

Section PortsMore.

Context `{Browser}.

Ltac keeps_step :=
  lazymatch goal with
  | |- keeps _ (mret _) => apply keeps_ret
  | |- keeps _ (mthrow _) => apply keeps_throw
  | |- keeps _ (gets _) => apply keeps_gets
  | |- keeps _ (_ ≫= _) => apply keeps_bind
  | |- keeps _ (for_each _ _) => apply keeps_for_each
  | |- keeps _ (modify _) => apply keeps_modify
  | |- keeps _ (if ?b then _ else _) => destruct b
  | |- keeps _ (match ?x with _ => _ end) => destruct x
  | |- PreOrder _ => apply _
  | |- ∀ _, _ => intros ?
  end.

#[local] Instance one_port_per_window_preorder : PreOrder one_port_per_window.
Proof. split; unfold one_port_per_window; [by intros st | intros st1 st2 st3; tauto]. Qed.

Lemma Map_set_keys k v l :
  (Map_set k v l).*1 = if bool_decide (k ∈ l.*1) then l.*1 else l.*1 ++ [k].
Proof.
  induction l as [| [k' v'] l IH]; [done |]. cbn [Map_set fmap list_fmap fst].
  destruct (bool_decide (k' = k)) eqn:Hk.
  - apply bool_decide_eq_true in Hk as ->.
    by rewrite bool_decide_eq_true_2 by apply list_elem_of_here.
  - apply bool_decide_eq_false in Hk. cbn [fmap list_fmap fst]. rewrite IH.
    destruct (bool_decide (k ∈ l.*1)) eqn:Hin.
    + apply bool_decide_eq_true in Hin.
      by rewrite bool_decide_eq_true_2 by by apply list_elem_of_further.
    + apply bool_decide_eq_false in Hin.
      rewrite bool_decide_eq_false_2; [done |].
      intros [-> | Hl]%elem_of_cons; done.
Qed.

Lemma Map_set_NoDup k v l : NoDup l.*1 → NoDup (Map_set k v l).*1.
Proof.
  intros Hnd. rewrite Map_set_keys. case_bool_decide as Hin; [done |].
  apply NoDup_app. split; [done |]. split; [| apply NoDup_singleton].
  intros x Hx ->%list_elem_of_singleton. done.
Qed.

Lemma Map_delete_NoDup k l : NoDup l.*1 → NoDup (Map_delete k l).*1.
Proof.
  unfold Map_delete. induction l as [| [k' v'] l IH]; [done |].
  cbn [fmap list_fmap fst]. intros [Hk Hnd]%NoDup_cons.
  rewrite filter_cons. case_decide; [| by apply IH].
  cbn [fmap list_fmap fst]. apply NoDup_cons. split; [| by apply IH].
  intros Hin. apply Hk. apply list_elem_of_fmap in Hin as ([k2 v2] & -> & Hin).
  apply list_elem_of_filter in Hin as [_ Hin].
  apply list_elem_of_fmap. by exists (k2, v2).
Qed.

Lemma step_one_port_per_window st e : one_port_per_window st (step st e).
Proof.
  destruct e; cbn [step];
    match goal with
    | |- one_port_per_window _ (after (?c _)) =>
        enough (keeps one_port_per_window c) by done
    end;
    unfold onBeforeRequest, onMessage, onPortMessage, portConnected,
      onWindowRemoved, onTabCreated, onTabActive, toggleNeverAsk, moveTabToGroup,
      postMessage, exemptTab, isExempt, set_properties, new_URL_hostname,
      or_throw, tabs_get, storage_local_get, storage_local_set,
      sessions_getTabValue, sessions_setTabValue, sessions_getWindowValue,
      sessions_setWindowValue, settle, react, redirectTab, issue;
    repeat keeps_step; unfold one_port_per_window; try done.
  - apply Map_set_NoDup.
  - apply Map_delete_NoDup.
Qed.

Lemma run_one_port_per_window es : ∀ st, one_port_per_window st (run es st).
Proof.
  induction es as [| e es IH]; intros st; simpl; [reflexivity |].
  etrans; [apply step_one_port_per_window | apply IH].
Qed.

Lemma port_of_elem_of st w p :
  NoDup (ports st).*1 → (w, p) ∈ ports st ↔ port_of st w = Some p.
Proof.
  unfold port_of. generalize (ports st). intros l Hnd.
  induction l as [| [k v] l IH]; [split; [by intros ?%elem_of_nil | done] |].
  cbn [fmap list_fmap fst] in Hnd. apply NoDup_cons in Hnd as [Hk Hnd].
  cbn [Map_get]. rewrite elem_of_cons. case_bool_decide as Hkw.
  - subst k. split.
    + intros [[= <-] | Hin]; [done |].
      exfalso. apply Hk. apply list_elem_of_fmap. by exists (w, p).
    + intros [= <-]. by left.
  - rewrite (IH Hnd). split; [intros [[= -> ->] | Hp]; done | by right].
Qed.

(** X20. One port per window: in every run of the script no window has two
    entries in [_ports], a pair is in [_ports] exactly when the port is the
    one of the window, and a broadcast posts its message once on each of
    these ports and issues nothing else. *)
Theorem broadcast_reaches_each_window_once es storage tabs windows msg :
  let st := run es (initial storage tabs windows) in
  NoDup (ports st).*1
  ∧ (∀ w p, (w, p) ∈ ports st ↔ port_of st w = Some p)
  ∧ postMessage msg st
    = (inr tt, set_log (λ l, l ++ map (λ p, PortPostMessage p.2 msg) (ports st)) st).
Proof.
  intros st.
  assert (NoDup (ports st).*1) as Hnd
    by (apply run_one_port_per_window; simpl; constructor).
  split; [done |]. split; [intros w p; by apply port_of_elem_of |].
  unfold postMessage. unfold mbind, M_bind, gets. apply for_each_issue.
Qed.

Lemma Map_get_set l k v w :
  Map_get w (Map_set k v l) = if decide (w = k) then Some v else Map_get w l.
Proof.
  induction l as [| [k' v'] l IH]; cbn [Map_set Map_get].
  - case_bool_decide; case_decide; congruence.
  - case_bool_decide as Hk; cbn [Map_get].
    + subst k'. case_bool_decide; case_decide; congruence.
    + rewrite IH. case_bool_decide; case_decide; congruence.
Qed.

Lemma Map_get_delete l k w :
  Map_get w (Map_delete k l) = if decide (w = k) then None else Map_get w l.
Proof.
  unfold Map_delete. induction l as [| [k' v'] l IH]; [by case_decide |].
  rewrite filter_cons. cbn [fst Map_get].
  destruct (decide (k' ≠ k)) as [Hk | Hk]; cbn [Map_get]; rewrite IH.
  - destruct (decide (w = k)) as [-> | Hw]; [| done].
    by rewrite bool_decide_eq_false_2.
  - apply dec_stable in Hk. subst k'.
    destruct (decide (w = k)) as [-> | Hw]; [done |].
    by rewrite bool_decide_eq_false_2.
Qed.

(** X21. A port that connects becomes the port of its window, in place of
    the port the window had, and is the only one to get the [connected]
    message; when the window is removed it has no port; the ports of the
    other windows stay in both cases. *)
Theorem port_connects_and_leaves st w p w' :
  let st1 := after (portConnected w p st) in
  let st2 := after (onWindowRemoved w st) in
  port_of st1 w' = (if decide (w' = w) then Some p else port_of st w')
  ∧ log st1 = log st ++ [PortPostMessage p Connected]
  ∧ port_of st2 w' = (if decide (w' = w) then None else port_of st w')
  ∧ log st2 = log st.
Proof.
  intros st1 st2. subst st1 st2. unfold port_of, portConnected, onWindowRemoved, issue.
  unfold_m. destruct st as [e po sl tv wv lg pe].
  cbn [fst snd set_ports set_log ports log exemptTabs storage_local tab_values
       window_values pending].
  by rewrite Map_get_set, Map_get_delete.
Qed.

End PortsMore.

(** ** The start of the script *)

Section PrepareMore.

Lemma prepare_unfold tabs : ∀ st,
  prepare tabs st
  = (inr tt, set_window_values (prepare_windows (tab_values st) tabs) st).
Proof.
  unfold prepare, prepare_windows.
  induction tabs as [| tab tabs IH]; intros st; cbn [for_each foldl].
  - by destruct st.
  - unfold mbind at 1, M_bind at 1. unfold sessions_getTabValue at 1.
    unfold mbind at 1, M_bind at 1, gets at 1.
    destruct (truthy (default VUndefined (tab_values st !! tab_id tab))) eqn:Ht;
      [destruct (tab_active tab) |].
    + unfold sessions_setWindowValue, modify. rewrite IH. by destruct st.
    + unfold mret, M_ret. rewrite IH. by destruct st. 
    + unfold mret, M_ret. rewrite IH. by destruct st.
Qed.

Lemma prepare_windows_other tv tabs : ∀ wv w,
  (∀ tab, tab ∈ tabs → tab_active tab = true → tab_windowId tab = w →
          truthy (default VUndefined (tv !! tab_id tab)) = false) →
  prepare_windows tv tabs wv !! w = wv !! w.
Proof.
  unfold prepare_windows.
  induction tabs as [| tab tabs IH]; intros wv w Hw; cbn [foldl]; [done |].
  rewrite IH by (intros t Ht; apply Hw; by apply list_elem_of_further).
  destruct (truthy (default VUndefined (tv !! tab_id tab))) eqn:Ht; [| done].
  destruct (tab_active tab) eqn:Ha; [| done]. cbn [andb].
  destruct (decide (tab_windowId tab = w)) as [Heq | Hne].
  - rewrite (Hw tab) in Ht; [done | apply list_elem_of_here | done | done].
  - by rewrite lookup_insert_ne.
Qed.

Lemma prepare_windows_active tv tabs : ∀ wv tab g,
  (∀ t1 t2, t1 ∈ tabs → t2 ∈ tabs → tab_active t1 = true → tab_active t2 = true →
            tab_windowId t1 = tab_windowId t2 → tab_id t1 = tab_id t2) →
  tab ∈ tabs → tab_active tab = true →
  default VUndefined (tv !! tab_id tab) = g → truthy g = true →
  prepare_windows tv tabs wv !! tab_windowId tab = Some g.
Proof.
  unfold prepare_windows.
  induction tabs as [| x tabs IH] using rev_ind; intros wv tab g Huniq Hin Ha Hg Ht;
    [by apply elem_of_nil in Hin |].
  rewrite foldl_app. cbn [foldl].
  destruct (truthy (default VUndefined (tv !! tab_id x)) && tab_active x) eqn:Hx.
  - apply andb_true_iff in Hx as [Hxt Hxa].
    destruct (decide (tab_windowId x = tab_windowId tab)) as [Hw | Hw].
    + rewrite Hw, lookup_insert_eq.
      rewrite (Huniq x tab); [by rewrite Hg | | done | done | done | done].
      apply elem_of_app. right. apply list_elem_of_here.
    + rewrite lookup_insert_ne by done.
      apply IH; try done.
      * intros t1 t2 H1 H2. apply Huniq; apply elem_of_app; by left.
      * apply elem_of_app in Hin as [Hin | Hin%list_elem_of_singleton]; [done |].
        by subst x.
  - apply IH; try done.
    + intros t1 t2 H1 H2. apply Huniq; apply elem_of_app; by left.
    + apply elem_of_app in Hin as [Hin | Hin%list_elem_of_singleton]; [done |].
      subst x. by rewrite Hg, Ht, Ha in Hx.
Qed.

(** X22. [prepare], on a list of tabs with at most one active tab per
    window: the window of every active tab that has a group gets this
    group as its active group; a window without such a tab keeps the value
    it had; the groups of the tabs, the settings, the exemptions and the
    ports are untouched and nothing is issued. *)
Theorem prepare_sets_active_groups st tabs :
  (∀ t1 t2, t1 ∈ tabs → t2 ∈ tabs → tab_active t1 = true → tab_active t2 = true →
            tab_windowId t1 = tab_windowId t2 → tab_id t1 = tab_id t2) →
  let st' := after (prepare tabs st) in
  result (prepare tabs st) = inr tt
  ∧ (∀ tab g, tab ∈ tabs → tab_active tab = true →
              currentGroup st (tab_id tab) = Some g →
              window_values st' !! tab_windowId tab = Some g)
  ∧ (∀ w, (∀ tab, tab ∈ tabs → tab_active tab = true → tab_windowId tab = w →
                  currentGroup st (tab_id tab) = None) →
          window_values st' !! w = window_values st !! w)
  ∧ st' = set_window_values (λ _, window_values st') st.
Proof.
  intros Huniq st'. subst st'. rewrite prepare_unfold. unfold result, after.
  cbn [fst snd]. split; [done |]. split; [| split].
  - intros tab g Hin Ha Hg. cbn [set_window_values window_values].
    unfold currentGroup in Hg.
    destruct (truthy (default VUndefined (tab_values st !! tab_id tab))) eqn:Ht;
      [| done].
    injection Hg as Hg. apply prepare_windows_active; try done. by rewrite Hg in Ht.
  - intros w Hw. cbn [set_window_values window_values].
    apply prepare_windows_other. intros tab Hin Ha Hwin.
    specialize (Hw tab Hin Ha Hwin). unfold currentGroup in Hw.
    by destruct (truthy (default VUndefined (tab_values st !! tab_id tab))).
  - by destruct st.
Qed.

End PrepareMore.

(** ** The settings and the toolbar button *)

Section PrefsMore.

Lemma local_get_lookup keys stored k :
  local_get keys stored !! k = if decide (k ∈ keys) then stored !! k else None.
Proof.
  unfold local_get. case_decide as Hk.
  - apply option_eq. intros v. rewrite map_lookup_filter_Some.
    split; [by intros [? _] | by intros ?].
  - apply map_lookup_filter_None. right. by intros v _.
Qed.

Lemma default_settings_lookup k :
  (list_to_map default_settings : gmap jsstring value) !! k
  = if decide (k ∈ default_settings.*1) then Some (VBool false) else None.
Proof.
  unfold default_settings. cbn [list_to_map foldr fmap list_fmap fst uncurry].
  case_decide as Hk.
  - apply elem_of_cons in Hk as [-> | Hk]; [by rewrite lookup_insert_eq |].
    apply list_elem_of_singleton in Hk as ->.
    rewrite lookup_insert_ne by done. by rewrite lookup_insert_eq.
  - rewrite !lookup_insert_ne, lookup_empty; [done | |];
      intros <-; apply Hk; [right; left | left].
Qed.

(** One round of the loop of [ensureDefaultSettings]. *)
Lemma fill_lookup (before : gmap jsstring value) key d k :
  (if bool_decide (is_Some (before !! key)) then before else <[key := d]> before) !! k
  = if decide (k = key) then Some (default d (before !! key)) else before !! k.
Proof.
  case_bool_decide as Hb; case_decide as Hk; subst.
  - by destruct Hb as [v ->].
  - done.
  - apply eq_None_not_Some in Hb. by rewrite lookup_insert_eq, Hb.
  - by rewrite lookup_insert_ne.
Qed.

(** What [ensureDefaultSettings] leaves in the store, key by key. *)
Lemma ensureDefaultSettings_lookup p k :
  local (ensureDefaultSettings p) !! k
  = match local p !! k with
    | Some v => Some v
    | None => if decide (k ∈ default_settings.*1) then Some (VBool false) else None
    end.
Proof.
  unfold ensureDefaultSettings, local_set. case_bool_decide as Hsize; cbn [local].
  - apply map_size_empty_inv in Hsize.
    pose proof (local_get_lookup default_settings.*1 (local p) k) as Hk.
    rewrite Hsize, lookup_empty in Hk.
    rewrite lookup_union, default_settings_lookup.
    case_decide; [rewrite <- Hk; done |]. by destruct (local p !! k).
  - rewrite lookup_union. unfold default_settings at 2.
    cbn [foldl fst snd]. rewrite !fill_lookup, !local_get_lookup.
    unfold default_settings. cbn [fmap list_fmap fst].
    destruct (decide (k = lit "openSidebarOnClick")) as [-> | Hk2].
    + rewrite decide_False by done.
      rewrite !decide_True by (right; left).
      by destruct (local p !! lit "openSidebarOnClick").
    + destruct (decide (k = lit "reverseTabDisplay")) as [-> | Hk1].
      * rewrite !decide_True by left.
        by destruct (local p !! lit "reverseTabDisplay").
      * rewrite !decide_False; [by destruct (local p !! k) | |];
          intros [-> | [-> | []%elem_of_nil]%elem_of_cons]%elem_of_cons; done.
Qed.

(** After [ensureDefaultSettings] on the settings of the loaded script,
    [_openSidebarOnClick] is the stored value. *)
Lemma ensureDefaultSettings_flag stored :
  let p := ensureDefaultSettings (loaded stored) in
  local p !! lit "openSidebarOnClick" = Some (openSidebarOnClick p).
Proof.
  intros p. subst p. rewrite ensureDefaultSettings_lookup.
  unfold ensureDefaultSettings, loaded. cbn [local openSidebarOnClick ui].
  case_bool_decide as Hsize; cbn [openSidebarOnClick].
  - apply map_size_empty_inv in Hsize.
    pose proof (local_get_lookup default_settings.*1 stored (lit "openSidebarOnClick")) as Hk.
    rewrite Hsize, lookup_empty, decide_True in Hk by (right; left).
    by rewrite <- Hk, decide_True by (right; left).
  - unfold default_settings. cbn [foldl fst snd fmap list_fmap].
    rewrite !fill_lookup, !local_get_lookup.
    rewrite (decide_True (P := lit "openSidebarOnClick" = lit "openSidebarOnClick"))
      by done.
    rewrite (decide_False (P := lit "openSidebarOnClick" = lit "reverseTabDisplay"))
      by done.
    rewrite !decide_True by (right; left). cbn [default].
    by destruct (stored !! lit "openSidebarOnClick").
Qed.

Lemma ensureDefaultSettings_ui p : ui (ensureDefaultSettings p) = ui p.
Proof. unfold ensureDefaultSettings. by case_bool_decide. Qed.

(** With both settings in the store, [ensureDefaultSettings] only reads
    [openSidebarOnClick] into [_openSidebarOnClick]. *)
Lemma ensureDefaultSettings_present p v1 v2 :
  local p !! lit "reverseTabDisplay" = Some v1 →
  local p !! lit "openSidebarOnClick" = Some v2 →
  ensureDefaultSettings p = mkPrefs (local p) v2 (ui p).
Proof.
  intros H1 H2.
  assert (local (ensureDefaultSettings p) = local p) as Hlocal.
  { apply map_eq. intros k. rewrite ensureDefaultSettings_lookup.
    destruct (local p !! k) eqn:Hk; [done |]. rewrite decide_False; [done |].
    unfold default_settings. cbn [fmap list_fmap fst].
    intros [-> | [-> | []%elem_of_nil]%elem_of_cons]%elem_of_cons; congruence. }
  pose proof (ensureDefaultSettings_ui p) as Hui.
  assert (openSidebarOnClick (ensureDefaultSettings p) = v2) as Hflag.
  { unfold ensureDefaultSettings. case_bool_decide as Hsize.
    - apply map_size_empty_inv in Hsize.
      pose proof (local_get_lookup default_settings.*1 (local p)
                    (lit "openSidebarOnClick")) as Hk.
      rewrite Hsize, lookup_empty, decide_True in Hk by (right; left). congruence.
    - cbn [openSidebarOnClick]. unfold default_settings.
      cbn [foldl fst snd fmap list_fmap].
      rewrite !fill_lookup, !local_get_lookup.
      rewrite (decide_True (P := lit "openSidebarOnClick" = lit "openSidebarOnClick"))
        by done.
      rewrite (decide_False (P := lit "openSidebarOnClick" = lit "reverseTabDisplay"))
        by done.
      rewrite !decide_True by (right; left). by rewrite H2. }
  destruct (ensureDefaultSettings p). cbn in *. congruence.
Qed.

(** X23. [ensureDefaultSettings] never overwrites a setting: a key that is
    in the store keeps its value, the two default keys that are missing
    are stored as [false], no other key is touched and nothing is called. *)
Theorem ensureDefaultSettings_keeps_and_fills p k :
  local (ensureDefaultSettings p) !! k
  = match local p !! k with
    | Some v => Some v
    | None => if decide (k ∈ [lit "reverseTabDisplay"; lit "openSidebarOnClick"])
              then Some (VBool false) else None
    end
  ∧ ui (ensureDefaultSettings p) = ui p.
Proof. split; [apply ensureDefaultSettings_lookup | apply ensureDefaultSettings_ui]. Qed.

(** X24. At the start of the script [ensureDefaultSettings] brings
    [_openSidebarOnClick] in line with the store, and running it once more
    changes nothing. *)
Theorem ensureDefaultSettings_at_start stored :
  let p := ensureDefaultSettings (loaded stored) in
  local p !! lit "openSidebarOnClick" = Some (openSidebarOnClick p)
  ∧ openSidebarOnClick p = default (VBool false) (stored !! lit "openSidebarOnClick")
  ∧ ensureDefaultSettings p = p.
Proof.
  intros p. pose proof (ensureDefaultSettings_flag stored) as Hflag.
  cbv zeta in Hflag. fold p in Hflag. split; [done |]. split.
  - subst p. rewrite ensureDefaultSettings_lookup in Hflag.
    change (local (loaded stored)) with stored in Hflag.
    destruct (stored !! lit "openSidebarOnClick") as [v |]; cbn [default id].
    + congruence.
    + rewrite decide_True in Hflag by (right; left). congruence.
  - assert (is_Some (local p !! lit "reverseTabDisplay")) as [v1 H1].
    { subst p. rewrite ensureDefaultSettings_lookup.
      destruct (local (loaded stored) !! lit "reverseTabDisplay"); [by eexists |].
      rewrite decide_True by left. by eexists. }
    rewrite (ensureDefaultSettings_present p v1 _ H1 Hflag).
    clear H1 Hflag. clearbody p. by destruct p.
Qed.

(** X25. The first click after the start of the script opens the sidebar
    exactly when the stored setting [openSidebarOnClick] is truthy; in
    both cases the popup is set, opened and set back to the empty
    string. *)
Theorem onClicked_after_start stored :
  ui (onClicked (ensureDefaultSettings (loaded stored)))
  = (if truthy (default (VBool false) (stored !! lit "openSidebarOnClick"))
     then [SidebarActionOpen] else [])
    ++ [BrowserActionSetPopup (lit "/popup/main.html");
        BrowserActionOpenPopup;
        BrowserActionSetPopup []].
Proof.
  pose proof (ensureDefaultSettings_flag stored) as Hflag. cbv zeta in Hflag.
  rewrite ensureDefaultSettings_lookup in Hflag.
  change (local (loaded stored)) with stored in Hflag.
  unfold onClicked. rewrite ensureDefaultSettings_ui. cbn [loaded ui].
  assert (openSidebarOnClick (ensureDefaultSettings (loaded stored))
          = default (VBool false) (stored !! lit "openSidebarOnClick")) as ->.
  { destruct (stored !! lit "openSidebarOnClick") as [v |]; cbn [default id].
    - congruence.
    - rewrite decide_True in Hflag by (right; left). congruence. }
  by destruct (truthy _).
Qed.

(** X26. A change of the stored [openSidebarOnClick] reaches the button: the
    click that follows it opens the sidebar exactly when the new value is
    truthy, and a change of other keys leaves the behaviour of the click as
    it was. *)
Theorem onSettingChange_then_onClicked changes p :
  ui (onClicked (onSettingChange changes p))
  = ui p
    ++ (if truthy (default (openSidebarOnClick p) (changes !! lit "openSidebarOnClick"))
        then [SidebarActionOpen] else [])
    ++ [BrowserActionSetPopup (lit "/popup/main.html");
        BrowserActionOpenPopup;
        BrowserActionSetPopup []].
Proof.
  unfold onClicked, onSettingChange.
  destruct (changes !! lit "openSidebarOnClick") as [v |];
    cbn [default id ui openSidebarOnClick];
    destruct (truthy _); by rewrite <- ?app_assoc.
Qed.

End PrefsMore.

(** ** The further properties at the example inputs *)

Lemma encodeURL_safe_witness :
  ∃ e, code_units shop_url ∧ URI.encodeURL shop_url = Some e
       ∧ Forall (λ c, url_safe c = true) e.
Proof.
  assert (code_units shop_url) as H1 by compute_done.
  assert (URI.encodeURL shop_url
          = Some (lit "https%3A%2F%2Fshop.example%2Fcart%3Fid%3D%281%29")) as H2
    by reflexivity.
  exact (ex_intro _ _ (conj H1 (conj H2 (encodeURL_safe shop_url _ H1 H2)))).
Defined.

Lemma encodeURL_injective_witness :
  code_units mail_url
  ∧ URI.encodeURL mail_url = Some (lit "https%3A%2F%2Fmail.example%2F")
  ∧ mail_url = mail_url.
Proof.
  assert (code_units mail_url) as H1 by compute_done.
  assert (URI.encodeURL mail_url = Some (lit "https%3A%2F%2Fmail.example%2F")) as H2
    by reflexivity.
  exact (conj H1 (conj H2 (encodeURL_injective mail_url mail_url _ H1 H1 H2 H2))).
Defined.

Lemma encodeURL_length_witness :
  ∃ e, code_units shop_url ∧ URI.encodeURL shop_url = Some e
       ∧ (length shop_url ≤ length e ≤ 9 * length shop_url)%nat.
Proof.
  assert (code_units shop_url) as H1 by compute_done.
  assert (URI.encodeURL shop_url
          = Some (lit "https%3A%2F%2Fshop.example%2Fcart%3Fid%3D%281%29")) as H2
    by reflexivity.
  exact (ex_intro _ _ (conj H1 (conj H2 (encodeURL_length shop_url _ H1 H2)))).
Defined.

Lemma onBeforeRequest_redirect_only_if_witness :
  let st := example_state g2 false in
  ∃ url, result (onBeforeRequest (H := example_browser) to_shop st) = inr (RedirectUrl url)
         ∧ o_frameId to_shop = 0%Z ∧ o_tabId to_shop ≠ (-1)%Z.
Proof.
  intros st. eexists.
  assert (result (onBeforeRequest (H := example_browser) to_shop st)
          = inr (RedirectUrl
                   (lit "moz-extension://0a1b/background/confirm.html?url=https%3A%2F%2Fshop.example%2Fcart%3Fid%3D%281%29&groupId=g2&tabId=7")))
    as H1 by reflexivity.
  destruct (onBeforeRequest_redirect_only_if (H := example_browser) st to_shop _ H1)
    as (Hf & Ht & _).
  exact (conj H1 (conj Hf Ht)).
Defined.


(** Tab 8 has no group. *)
Lemma onBeforeRequest_proceeds_witness :
  let st := example_state g2 false in
  let o := mkOptions 0 8 shop_url in
  URL_hostname (Browser := example_browser) (o_url o) = Some shop
  ∧ currentGroup st (o_tabId o) = None
  ∧ onBeforeRequest (H := example_browser) o st = (inr Empty, st).
Proof.
  intros st o.
  assert (URL_hostname (Browser := example_browser) (o_url o) = Some shop) as H1
    by reflexivity.
  assert (currentGroup st (o_tabId o) = None) as H2 by reflexivity.
  exact (conj H1 (conj H2 (onBeforeRequest_proceeds (H := example_browser)
                             st o shop H1 (or_introl H2)))).
Defined.


Lemma group_move_then_navigation_witness :
  let st := example_state g2 false in
  let st' := after (onMessage (H := example_browser) confirm_move st) in
  result (onMessage (H := example_browser) confirm_move st) = inr tt
  ∧ storage_local st' !! page_key shop = Some (mkPageSettings g2 (VBool false))
  ∧ onBeforeRequest (H := example_browser) to_shop st' = (inr Empty, st').
Proof.
  intros st st'.
  assert (result (onMessage (H := example_browser) confirm_move st) = inr tt) as H1
    by reflexivity.
  assert (storage_local st' !! page_key shop = Some (mkPageSettings g2 (VBool false)))
    as H2 by apply lookup_singleton_eq.
  exact (conj H1 (conj H2 (group_move_then_navigation (H := example_browser)
                             st confirm_move g2 to_shop shop _
                             eq_refl eq_refl H1 eq_refl eq_refl H2 eq_refl))).
Defined.


Lemma activeGroup_message_then_onTabCreated_witness :
  let st := example_state g2 false in
  let st1 := after (onPortMessage active_group_g2 st) in
  let st2 := after (onTabCreated 9 3 st1) in
  m_method active_group_g2 = lit "activeGroup"
  ∧ result (sessions_getTabValue 9 st2) = inr g2.
Proof.
  intros st st1 st2.
  assert (m_method active_group_g2 = lit "activeGroup") as H1 by reflexivity.
  destruct (activeGroup_message_then_onTabCreated st active_group_g2 9 H1)
    as (_ & Hget & _).
  exact (conj H1 Hget).
Defined.

Lemma tab_groups_change_only_witness :
  let st := initial ∅ ∅ {[ 3%Z := g2 ]} in
  let e := TabCreated 9 3 in
  tab_values (step (H := example_browser) st e) ≠ tab_values st
  ∧ ((∃ id windowId, e = TabCreated id windowId) ∨ (∃ m, e = Message m)).
Proof.
  intros st e.
  assert (tab_values (step (H := example_browser) st e) ≠ tab_values st) as H1.
  { intros Heq. apply (f_equal (λ m : gmap Z value, m !! 9%Z)) in Heq.
    vm_compute in Heq. discriminate Heq. }
  exact (conj H1 (tab_groups_change_only (H := example_browser) st e H1)).
Defined.

Lemma exemptTab_other_tab_witness :
  let st := after (exemptTab 8 mail (initial ∅ ∅ ∅)) in
  8%Z ≠ 7%Z
  ∧ exempt_in (after (exemptTab 7 shop st)) 8 mail = exempt_in st 8 mail.
Proof.
  intros st. assert (8%Z ≠ 7%Z) as H1 by lia.
  exact (conj H1 (exemptTab_other_tab st 7 shop 8 mail H1)).
Defined.

(** The same tab, record and exemptions, in a state with another window,
    another tab and a port. *)
Lemma onBeforeRequest_depends_on_witness :
  let st1 := example_state g2 false in
  let st2 := after (portConnected 3 1 (after (onTabCreated 9 3 st1))) in
  result (onBeforeRequest (H := example_browser) to_shop st1)
  = result (onBeforeRequest (H := example_browser) to_shop st2).
Proof.
  intros st1 st2.
  assert (properties (exemptTabs st1) !! o_tabId to_shop
          = properties (exemptTabs st2) !! o_tabId to_shop) as H1 by reflexivity.
  assert (∀ D, URL_hostname (Browser := example_browser) (o_url to_shop) = Some D →
               storage_local st1 !! page_key D = storage_local st2 !! page_key D) as H2
    by reflexivity.
  assert (tab_values st1 !! o_tabId to_shop = tab_values st2 !! o_tabId to_shop) as H3
    by (vm_compute; reflexivity).
  exact (onBeforeRequest_depends_on (H := example_browser) st1 st2 to_shop H1 H2 H3).
Defined.

Lemma prepare_sets_active_groups_witness :
  let st := example_state g2 false in
  let st' := after (prepare example_tabs st) in
  window_values st' !! 3%Z = Some g1 ∧ window_values st' !! 4%Z = window_values st !! 4%Z.
Proof.
  intros st st'.
  assert (∀ t1 t2, t1 ∈ example_tabs → t2 ∈ example_tabs →
                   tab_active t1 = true → tab_active t2 = true →
                   tab_windowId t1 = tab_windowId t2 → tab_id t1 = tab_id t2) as H1.
  { intros t1 t2 Ht1 Ht2. unfold example_tabs in *.
    repeat (apply elem_of_cons in Ht1 as [-> | Ht1]);
      repeat (apply elem_of_cons in Ht2 as [-> | Ht2]);
      try (by apply elem_of_nil in Ht1); try (by apply elem_of_nil in Ht2);
      cbn; congruence. }
  destruct (prepare_sets_active_groups st example_tabs H1) as (_ & Hactive & Hother & _).
  split.
  - apply (Hactive (mkTab 7 3 true) g1); [apply list_elem_of_here | reflexivity..].
  - apply Hother. intros tab Hin Ha Hw. unfold example_tabs in Hin.
    repeat (apply elem_of_cons in Hin as [-> | Hin]);
      [discriminate Hw | discriminate Ha | reflexivity | by apply elem_of_nil in Hin].
Defined.
